(** * stress-prime: the prime-search stressor of stress-ng

    A shallow embedding of [stress-prime.c].  The worker [stress_prime] is
    modelled as a machine that executes one statement of the search loop per
    step; SIGALRM may be delivered between any two statements, which is how
    [stress_prime_alarm_handler] interleaves with the loop.

    Conventions.
    - [mpz_t] values are unbounded integers ([Z]).
    - [double] values (clock readings, [duration], [rate]) are exact
      rationals ([Q]); rounding is not modelled.
    - [uint64_t] values are integers reduced modulo [2^64].
    - [mpz_nextprime] is a parameter of the model (section variable); a
      reference search [nextprime_ref], proved to return the smallest prime
      above its argument, is used to run the model.
    - [mpz_sizeinbase] follows libgmp's computation from the bit length.
    - The helpers of stress-ng.h used by the worker ([stress_bogo_inc],
      [stress_bogo_get], [stress_continue], [stress_continue_set_flag]) are
      modelled from the spec.
    - [stress_set_setting] (stress-ng.h) is the store that
      [stress_get_setting] reads; [stderr] is the list of the strings
      written to it, one for each [fprintf]. *)

From Stdlib Require Import ZArith QArith Lia List Bool.
From Stdlib Require String Ascii.
Import ListNotations String.StringSyntax.
Delimit Scope string_scope with string.

Local Open Scope Z_scope.

(** ** Constants of the source *)

Definition STRESS_PRIME_METHOD_FACTORIAL : Z := 0.
Definition STRESS_PRIME_METHOD_INC : Z := 1.
Definition STRESS_PRIME_METHOD_PWR2 : Z := 2.
Definition STRESS_PRIME_METHOD_PWR10 : Z := 3.

Definition STRESS_PRIME_PROGRESS_INC_SECS : Q := 60%Q.

(** ** The arithmetic backend (libgmp) *)

Module Gmp.

(** [mp_bases[10].logb2] for 64-bit limbs: the integer part of
    [2^64 * log10 2]. *)
Definition mp_bases_10_logb2 : Z := 0x4d104d427de7fbcc.

Definition GMP_LIMB_BITS : Z := 64.

(** [umul_ppmm (ph, pl, u, v)]: the two limbs of the product [u * v]. *)
Definition umul_ppmm (u v : Z) : Z * Z :=
  ((u * v) / 2 ^ GMP_LIMB_BITS, (u * v) mod 2 ^ GMP_LIMB_BITS).

(** [DIGITS_IN_BASE_FROM_BITS (res, nbits, 10)]. *)
Definition DIGITS_IN_BASE_FROM_BITS (nbits : Z) : Z :=
  let '(ph, dummy) := umul_ppmm mp_bases_10_logb2 nbits in
  let carry := if (dummy + nbits) mod 2 ^ GMP_LIMB_BITS <? dummy then 1 else 0 in
  ph + carry + 1.

(** [mpz_sizeinbase (x, 10)]: libgmp derives the answer from the number of
    significant bits of [|x|] alone (macro [MPN_SIZEINBASE]); the manual
    states that for a base that is not a power of two the result is either
    exact or 1 too big, and that it is 1 for zero. *)
Definition mpz_sizeinbase10 (x : Z) : Z :=
  if x =? 0 then 1
  else DIGITS_IN_BASE_FROM_BITS (Z.log2 (Z.abs x) + 1).

End Gmp.

(** The exact number of decimal digits of a positive integer, by repeated
    division by ten. *)
Fixpoint decimal_digits_aux (fuel : nat) (n : Z) : Z :=
  match fuel with
  | O => 1
  | S f => if n <? 10 then 1 else 1 + decimal_digits_aux f (n / 10)
  end.

Definition decimal_digits (n : Z) : Z :=
  decimal_digits_aux (Z.to_nat (Z.log2 n)) n.

(** ** A reference primality oracle *)

(** [no_divisor_from fuel d p]: none of [d, d+1, ..., d+fuel-1] divides [p]. *)
Fixpoint no_divisor_from (fuel : nat) (d p : Z) : bool :=
  match fuel with
  | O => true
  | S f => negb (p mod d =? 0) && no_divisor_from f (d + 1) p
  end.

Definition is_prime_b (p : Z) : bool :=
  (1 <? p) && no_divisor_from (Z.to_nat (p - 2)) 2 p.

(** [scan fuel k] tests the [fuel] candidates [k, k+1, ...] in order:
    [inl p] is the first prime among them, [inr k'] says there is none and
    the search would go on at [k']. *)
Fixpoint scan (fuel : positive) (k : Z) : Z + Z :=
  match fuel with
  | xH => if is_prime_b k then inl k else inr (k + 1)
  | xO f =>
      match scan f k with
      | inl p => inl p
      | inr k' => scan f k'
      end
  | xI f =>
      match scan f k with
      | inl p => inl p
      | inr k' =>
          match scan f k' with
          | inl p => inl p
          | inr k'' => if is_prime_b k'' then inl k'' else inr (k'' + 1)
          end
      end
  end.

Fixpoint zfact (n : nat) : Z :=
  match n with
  | O => 1
  | S m => Z.of_nat n * zfact m
  end.

(** The smallest prime strictly greater than [n]; by Euclid's argument one
    lies below [k + (k-1)!] for [k = max 2 (n+1)]. *)
Definition nextprime_ref (n : Z) : Z :=
  let k := Z.max 2 (n + 1) in
  match scan (Z.to_pos (zfact (Z.to_nat (k - 1)))) k with
  | inl p => p
  | inr _ => 2
  end.

(** What the spec calls the primality oracle: [p] is the smallest prime
    strictly greater than [n]. *)
Definition next_prime_after (n p : Z) : Prop :=
  Z.prime p /\ n < p /\ forall q, Z.prime q -> n < q -> p <= q.

(** ** The worker *)

(** Program points of [stress_prime] from the loop entry on. *)
Inductive label : Set :=
| L_time1        (* t1 = stress_time_now() *)
| L_nextprime    (* mpz_nextprime(value, start) *)
| L_time2        (* t2 = stress_time_now(); duration += t2 - t1 *)
| L_switch       (* switch (prime_method) *)
| L_bogo_inc     (* stress_bogo_inc(args) *)
| L_sizeinbase   (* digits = mpz_sizeinbase(value, 10) *)
| L_progress     (* if (prime_progress && (t2 >= t_progress_secs)) *)
| L_while        (* while (stress_continue(args)) *)
| L_finish       (* finish: if (!jumped) mpz_clears(...) *)
| L_report       (* ops = ...; pr_inf; rate = ...; stress_metrics_set *)
| L_return.      (* return EXIT_SUCCESS *)

Definition label_eqb (a b : label) : bool :=
  match a, b with
  | L_time1, L_time1 | L_nextprime, L_nextprime | L_time2, L_time2
  | L_switch, L_switch | L_bogo_inc, L_bogo_inc | L_sizeinbase, L_sizeinbase
  | L_progress, L_progress | L_while, L_while | L_finish, L_finish
  | L_report, L_report | L_return, L_return => true
  | _, _ => false
  end.

Definition in_loop (l : label) : bool :=
  match l with
  | L_finish | L_report | L_return => false
  | _ => true
  end.

Inductive proc_state_t : Set := STRESS_STATE_RUN | STRESS_STATE_DEINIT.

(** What the worker hands to the logging and metrics sinks. *)
Inductive output : Type :=
| Progress (t : Q) (found : Z) (len : Z)
    (* the pr_inf of the loop; [t] is the [t2] at which it fired *)
| Summary (found : Z) (len : Z)
    (* the pr_inf after the loop *)
| Metric (rate : Q).
    (* stress_metrics_set(args, 0, "primes per second", rate, STRESS_HARMONIC_MEAN) *)

(** The variables of the worker: its arguments, its locals, and the
    statics it shares with the signal handler. *)
Record worker : Type := mkWorker {
  instance : Z;            (* args->instance *)
  max_ops : Z;             (* args->max_ops *)
  counter : Z;             (* the bogo-op counter behind args, uint64_t *)
  proc_state : proc_state_t;
  prime_method : Z;
  prime_progress : bool;
  start : Z;
  value : Z;
  factorial : Z;
  mpz_live : bool;         (* false once mpz_clears has run *)
  duration : Q;
  digits : Z;
  t_progress_secs : Q;
  t1 : Q;
  t2 : Q;
  continue_flag : bool;    (* the flag behind stress_continue_set_flag *)
  count : Z;               (* static int count of the alarm handler *)
  jumped : bool;
  out : list output
}.

Definition set_counter (x : Z) (w : worker) : worker :=
  mkWorker (instance w) (max_ops w) x (proc_state w) (prime_method w)
    (prime_progress w) (start w) (value w) (factorial w) (mpz_live w)
    (duration w) (digits w) (t_progress_secs w) (t1 w) (t2 w)
    (continue_flag w) (count w) (jumped w) (out w).

Definition set_proc_state (x : proc_state_t) (w : worker) : worker :=
  mkWorker (instance w) (max_ops w) (counter w) x (prime_method w)
    (prime_progress w) (start w) (value w) (factorial w) (mpz_live w)
    (duration w) (digits w) (t_progress_secs w) (t1 w) (t2 w)
    (continue_flag w) (count w) (jumped w) (out w).

Definition set_start (x : Z) (w : worker) : worker :=
  mkWorker (instance w) (max_ops w) (counter w) (proc_state w)
    (prime_method w) (prime_progress w) x (value w) (factorial w)
    (mpz_live w) (duration w) (digits w) (t_progress_secs w) (t1 w) (t2 w)
    (continue_flag w) (count w) (jumped w) (out w).

Definition set_value (x : Z) (w : worker) : worker :=
  mkWorker (instance w) (max_ops w) (counter w) (proc_state w)
    (prime_method w) (prime_progress w) (start w) x (factorial w)
    (mpz_live w) (duration w) (digits w) (t_progress_secs w) (t1 w) (t2 w)
    (continue_flag w) (count w) (jumped w) (out w).

Definition set_factorial (x : Z) (w : worker) : worker :=
  mkWorker (instance w) (max_ops w) (counter w) (proc_state w)
    (prime_method w) (prime_progress w) (start w) (value w) x (mpz_live w)
    (duration w) (digits w) (t_progress_secs w) (t1 w) (t2 w)
    (continue_flag w) (count w) (jumped w) (out w).

Definition set_mpz_live (x : bool) (w : worker) : worker :=
  mkWorker (instance w) (max_ops w) (counter w) (proc_state w)
    (prime_method w) (prime_progress w) (start w) (value w) (factorial w) x
    (duration w) (digits w) (t_progress_secs w) (t1 w) (t2 w)
    (continue_flag w) (count w) (jumped w) (out w).

Definition set_duration (x : Q) (w : worker) : worker :=
  mkWorker (instance w) (max_ops w) (counter w) (proc_state w)
    (prime_method w) (prime_progress w) (start w) (value w) (factorial w)
    (mpz_live w) x (digits w) (t_progress_secs w) (t1 w) (t2 w)
    (continue_flag w) (count w) (jumped w) (out w).

Definition set_digits (x : Z) (w : worker) : worker :=
  mkWorker (instance w) (max_ops w) (counter w) (proc_state w)
    (prime_method w) (prime_progress w) (start w) (value w) (factorial w)
    (mpz_live w) (duration w) x (t_progress_secs w) (t1 w) (t2 w)
    (continue_flag w) (count w) (jumped w) (out w).

Definition set_t_progress_secs (x : Q) (w : worker) : worker :=
  mkWorker (instance w) (max_ops w) (counter w) (proc_state w)
    (prime_method w) (prime_progress w) (start w) (value w) (factorial w)
    (mpz_live w) (duration w) (digits w) x (t1 w) (t2 w) (continue_flag w)
    (count w) (jumped w) (out w).

Definition set_t1 (x : Q) (w : worker) : worker :=
  mkWorker (instance w) (max_ops w) (counter w) (proc_state w)
    (prime_method w) (prime_progress w) (start w) (value w) (factorial w)
    (mpz_live w) (duration w) (digits w) (t_progress_secs w) x (t2 w)
    (continue_flag w) (count w) (jumped w) (out w).

Definition set_t2 (x : Q) (w : worker) : worker :=
  mkWorker (instance w) (max_ops w) (counter w) (proc_state w)
    (prime_method w) (prime_progress w) (start w) (value w) (factorial w)
    (mpz_live w) (duration w) (digits w) (t_progress_secs w) (t1 w) x
    (continue_flag w) (count w) (jumped w) (out w).

Definition set_continue_flag (x : bool) (w : worker) : worker :=
  mkWorker (instance w) (max_ops w) (counter w) (proc_state w)
    (prime_method w) (prime_progress w) (start w) (value w) (factorial w)
    (mpz_live w) (duration w) (digits w) (t_progress_secs w) (t1 w) (t2 w) x
    (count w) (jumped w) (out w).

Definition set_count (x : Z) (w : worker) : worker :=
  mkWorker (instance w) (max_ops w) (counter w) (proc_state w)
    (prime_method w) (prime_progress w) (start w) (value w) (factorial w)
    (mpz_live w) (duration w) (digits w) (t_progress_secs w) (t1 w) (t2 w)
    (continue_flag w) x (jumped w) (out w).

Definition set_jumped (x : bool) (w : worker) : worker :=
  mkWorker (instance w) (max_ops w) (counter w) (proc_state w)
    (prime_method w) (prime_progress w) (start w) (value w) (factorial w)
    (mpz_live w) (duration w) (digits w) (t_progress_secs w) (t1 w) (t2 w)
    (continue_flag w) (count w) x (out w).

Definition set_out (x : list output) (w : worker) : worker :=
  mkWorker (instance w) (max_ops w) (counter w) (proc_state w)
    (prime_method w) (prime_progress w) (start w) (value w) (factorial w)
    (mpz_live w) (duration w) (digits w) (t_progress_secs w) (t1 w) (t2 w)
    (continue_flag w) (count w) (jumped w) x.

(** The worker at a program point. *)
Record machine : Type := Machine {
  pc : label;
  vars : worker
}.

(** ** The harness interface *)

Definition uint64 (x : Z) : Z := x mod 2 ^ 64.

(** Modelled from the spec: [stress_bogo_inc] and [stress_bogo_get] are
    declared in stress-ng.h, which is not part of the sources at hand.  The
    Operation Count is an unsigned counter incremented once per call; the
    worker reads it into [uint64_t ops]. *)
Definition stress_bogo_inc (w : worker) : worker :=
  set_counter (uint64 (counter w + 1)) w.

Definition stress_bogo_get (w : worker) : Z := counter w.

(** Modelled from the spec: [stress_continue_set_flag] and [stress_continue]
    are declared in stress-ng.h.  The Continue Flag gates the loop, and the
    harness folds its operation budget ([prime-ops N], zero meaning no
    budget) into the same predicate. *)
Definition stress_continue_set_flag (b : bool) (w : worker) : worker :=
  set_continue_flag b w.

Definition stress_continue (w : worker) : bool :=
  continue_flag w && ((max_ops w =? 0) || (stress_bogo_get w <? max_ops w)).

(** The settings store read by [stress_get_setting]; a missing setting
    leaves the caller's variable untouched. *)
Record settings : Type := mkSettings {
  setting_prime_method : option Z;
  setting_prime_progress : option bool
}.

Definition stress_get_setting {A : Type} (s : option A) (dflt : A) : A :=
  match s with
  | Some v => v
  | None => dflt
  end.

Record stress_args_t : Type := mkArgs {
  args_instance : Z;
  args_max_ops : Z
}.

(** ** The statements of [stress_prime] *)

(** [rate = (duration > 0.0) ? (double)ops / duration : 0.0] *)
Definition rate_of (ops : Z) (dur : Q) : Q :=
  if negb (Qle_bool dur 0) then (inject_Z ops / dur)%Q else 0%Q.

(** [t1 = stress_time_now()] *)
Definition stmt_time1 (now : Q) (w : worker) : worker := set_t1 now w.

(** [t2 = stress_time_now(); duration += t2 - t1] *)
Definition stmt_time2 (now : Q) (w : worker) : worker :=
  set_duration (duration w + (now - t1 w))%Q (set_t2 now w).

(** The body of [switch (prime_method)]; [default:] shares the arm of
    [STRESS_PRIME_METHOD_FACTORIAL]. *)
Definition factorial_arm (w : worker) : worker :=
  set_factorial (factorial w + 1) (set_start (start w * factorial w) w).

Definition switch_prime_method (w : worker) : worker :=
  if prime_method w =? STRESS_PRIME_METHOD_FACTORIAL then factorial_arm w
  else if prime_method w =? STRESS_PRIME_METHOD_INC then
    set_start (value w + 2) w
  else if prime_method w =? STRESS_PRIME_METHOD_PWR2 then
    set_start (start w * 2) w
  else if prime_method w =? STRESS_PRIME_METHOD_PWR10 then
    set_start (start w * 10) w
  else factorial_arm w.

(** The same switch as a function of the four integers it reads: the new
    [start] and the new [factorial]. *)
Definition growth (method start value factorial : Z) : Z * Z :=
  if method =? STRESS_PRIME_METHOD_FACTORIAL then
    (start * factorial, factorial + 1)
  else if method =? STRESS_PRIME_METHOD_INC then (value + 2, factorial)
  else if method =? STRESS_PRIME_METHOD_PWR2 then (start * 2, factorial)
  else if method =? STRESS_PRIME_METHOD_PWR10 then (start * 10, factorial)
  else (start * factorial, factorial + 1).

(** [digits = mpz_sizeinbase(value, 10)] *)
Definition stmt_sizeinbase (w : worker) : worker :=
  set_digits (Gmp.mpz_sizeinbase10 (value w)) w.

(** [if (prime_progress && (t2 >= t_progress_secs)) { ... }] *)
Definition progress_check (w : worker) : worker :=
  if prime_progress w && Qle_bool (t_progress_secs w) (t2 w) then
    set_out (out w ++ [Progress (t2 w) (stress_bogo_get w) (digits w)])
      (set_t_progress_secs
         (t_progress_secs w + STRESS_PRIME_PROGRESS_INC_SECS)%Q w)
  else w.

(** [finish: if (!jumped) mpz_clears(start, value, factorial, NULL)] *)
Definition finish (w : worker) : worker :=
  if negb (jumped w) then set_mpz_live false w else w.

(** The summary line, the rate and the metric, then the state change to
    [STRESS_STATE_DEINIT]. *)
Definition report (w : worker) : worker :=
  let ops := stress_bogo_get w in
  let rate := rate_of ops (duration w) in
  set_proc_state STRESS_STATE_DEINIT
    (set_out (out w ++ [Summary ops (digits w); Metric rate]) w).

(** [siglongjmp(jmpbuf, 1)]: [sigsetjmp] returns non-zero, so
    [jumped = true; goto finish]. *)
Definition siglongjmp (m : machine) : machine :=
  Machine L_finish (set_jumped true (vars m)).

Definition stress_prime_alarm_handler (m : machine) : machine :=
  let w1 := stress_continue_set_flag false (vars m) in
  let w2 := set_count (count w1 + 1) w1 in
  if 1 <? count w2 then siglongjmp (Machine (pc m) w2) else Machine (pc m) w2.

(** Something that happens to the worker: it executes its next statement,
    with the wall clock reading [now] for [stress_time_now], or SIGALRM is
    delivered to it. *)
Inductive event : Type :=
| Run (now : Q)
| SIGALRM.

(** The variables at the loop entry: settings read, [mpz_inits], the
    instance check, [start = 1], [factorial = 2], [jumped = false], the
    progress threshold.  [now] is the clock reading taken for the
    threshold. *)
Definition worker_init (a : stress_args_t) (s : settings) (now : Q) : worker :=
  let prime_method := stress_get_setting (setting_prime_method s)
                        STRESS_PRIME_METHOD_INC in
  let prime_progress := stress_get_setting (setting_prime_progress s) false in
  let prime_progress :=
    if args_instance a >? 0 then false else prime_progress in
  {| instance := args_instance a;
     max_ops := args_max_ops a;
     counter := 0;
     proc_state := STRESS_STATE_RUN;
     prime_method := prime_method;
     prime_progress := prime_progress;
     start := 1;
     value := 0;
     factorial := 2;
     mpz_live := true;
     duration := 0%Q;
     digits := 1;
     t_progress_secs := (now + STRESS_PRIME_PROGRESS_INC_SECS)%Q;
     t1 := 0%Q;
     t2 := 0%Q;
     continue_flag := true;
     count := 0;
     jumped := false;
     out := [] |}.

(** The worker about to enter the loop, the handler installed. *)
Definition loop_entry (a : stress_args_t) (s : settings) (now : Q) : machine :=
  Machine L_time1 (worker_init a s now).

Inductive exit_status : Set := EXIT_SUCCESS | EXIT_NO_RESOURCE.

(** The events of one pass, from [L_time1] to the loop condition, the clock
    reading [now1] at [t1] and [now2] at [t2]. *)
Definition pass (now1 now2 : Q) : list event :=
  [Run now1; Run now1; Run now2; Run now2; Run now2; Run now2; Run now2;
   Run now2].

(** A pass during which SIGALRM arrives after [k] of its statements. *)
Definition pass_with_alarm (k : nat) (now1 now2 : Q) : list event :=
  firstn k (pass now1 now2) ++ SIGALRM :: skipn k (pass now1 now2).

(** [body] once for each pair of clock readings, in order. *)
Fixpoint passes (body : Q -> Q -> worker -> worker) (ts : list (Q * Q))
    (w : worker) : worker :=
  match ts with
  | [] => w
  | t :: ts' => passes body ts' (body (fst t) (snd t) w)
  end.

Section Worker.

(** [mpz_nextprime]: the prime the backend returns for a given start. *)
Variable mpz_nextprime : Z -> Z.

(** [mpz_nextprime(value, start)] *)
Definition stmt_nextprime (w : worker) : worker :=
  set_value (mpz_nextprime (start w)) w.

Definition exec (now : Q) (m : machine) : machine :=
  let w := vars m in
  match pc m with
  | L_time1 => Machine L_nextprime (stmt_time1 now w)
  | L_nextprime => Machine L_time2 (stmt_nextprime w)
  | L_time2 => Machine L_switch (stmt_time2 now w)
  | L_switch => Machine L_bogo_inc (switch_prime_method w)
  | L_bogo_inc => Machine L_sizeinbase (stress_bogo_inc w)
  | L_sizeinbase => Machine L_progress (stmt_sizeinbase w)
  | L_progress => Machine L_while (progress_check w)
  | L_while => Machine (if stress_continue w then L_time1 else L_finish) w
  | L_finish => Machine L_report (finish w)
  | L_report => Machine L_return (report w)
  | L_return => m
  end.

(** Once [stress_prime] has returned nothing more is modelled. *)
Definition step (e : event) (m : machine) : machine :=
  match e with
  | Run now => exec now m
  | SIGALRM =>
      if label_eqb (pc m) L_return then m else stress_prime_alarm_handler m
  end.

Definition run (evs : list event) (m : machine) : machine :=
  fold_left (fun acc e => step e acc) evs m.

(** [stress_prime]: [sighandler_ok] tells whether [stress_sighandler]
    succeeded.  The result is the exit status and what was handed to the
    sinks, or [None] while the worker has not returned under the events
    given. *)
Definition stress_prime (a : stress_args_t) (s : settings) (now : Q)
    (sighandler_ok : bool) (evs : list event)
  : option (exit_status * list output) :=
  if sighandler_ok then
    let m := run evs (loop_entry a s now) in
    if label_eqb (pc m) L_return then Some (EXIT_SUCCESS, out (vars m))
    else None
  else Some (EXIT_NO_RESOURCE, []).

(** One pass through the body of the do-while loop, statement after
    statement. *)
Definition loop_body (now1 now2 : Q) (w : worker) : worker :=
  progress_check
    (stmt_sizeinbase
       (stress_bogo_inc
          (switch_prime_method
             (stmt_time2 now2 (stmt_nextprime (stmt_time1 now1 w)))))).

(** One pass for each pair of clock readings. *)
Definition iterations (ts : list (Q * Q)) (w : worker) : worker :=
  passes loop_body ts w.

End Worker.

(** ** Observations *)

Definition is_progress (o : output) : bool :=
  match o with
  | Progress _ _ _ => true
  | _ => false
  end.

(** The [t2] of the progress lines of an output, oldest first. *)
Fixpoint progress_times (o : list output) : list Q :=
  match o with
  | [] => []
  | Progress t _ _ :: o' => t :: progress_times o'
  | _ :: o' => progress_times o'
  end.

Fixpoint count_alarms (evs : list event) : Z :=
  match evs with
  | [] => 0
  | SIGALRM :: evs' => 1 + count_alarms evs'
  | Run _ :: evs' => count_alarms evs'
  end.

(** The clock never runs backwards along the events, starting from [t]. *)
Fixpoint monotone_clock (t : Q) (evs : list event) : Prop :=
  match evs with
  | [] => True
  | Run now :: evs' => (t <= now)%Q /\ monotone_clock now evs'
  | SIGALRM :: evs' => monotone_clock t evs'
  end.

(** Emissions at least [gap] apart. *)
Definition spaced (gap : Q) (l : list Q) : Prop :=
  forall i j ti tj, (i < j)%nat ->
    nth_error l i = Some ti -> nth_error l j = Some tj ->
    (ti + gap <= tj)%Q.

(** The [k]-th multiple of the progress increment past [t0]. *)
Definition threshold_after (t0 : Q) (k : nat) : Q :=
  (t0 + inject_Z (60 * Z.of_nat k))%Q.

(** ** Sample runs *)

Definition args0 : stress_args_t := mkArgs 0 0.
Definition args1 : stress_args_t := mkArgs 1 0.
Definition no_settings : settings := mkSettings None None.
Definition with_progress : settings := mkSettings None (Some true).
Definition with_method (m : Z) : settings := mkSettings (Some m) None.

Definition burst_events : list event := pass 0 200 ++ pass 200 201.

Definition many_passes : list (Q * Q) := repeat (0%Q, 0%Q) (Z.to_nat (2 ^ 64)).

Definition three_passes : list (Q * Q) := [(0%Q, 1%Q); (1%Q, 2%Q); (2%Q, 3%Q)].

(** What the handler does to the variables when it does not jump. *)
Definition alarm_vars (w : worker) : worker :=
  set_count (count w + 1) (set_continue_flag false w).

(** The threshold counts the emissions, and each emission waited for it. *)
Definition progress_inv (t0 : Q) (w : worker) : Prop :=
  (t_progress_secs w ==
   threshold_after t0 (S (length (progress_times (out w)))))%Q /\
  forall k t, nth_error (progress_times (out w)) k = Some t ->
              (threshold_after t0 (S k) <= t)%Q.

(** ** Checking the digit estimate *)

(** A table check of [DIGITS_IN_BASE_FROM_BITS] for [n] bit lengths after
    [nbits], carrying [pow2 = 2 ^ nbits] and [pow10 = 10 ^ r] along. *)
Fixpoint sizeinbase_table (n : nat) (nbits pow2 r pow10 : Z) : bool :=
  match n with
  | O => true
  | S k =>
      let nbits' := nbits + 1 in
      let pow2' := 2 * pow2 in
      let r' := Gmp.DIGITS_IN_BASE_FROM_BITS nbits' in
      let pow10' := if r' =? r then pow10 else 10 * pow10 in
      ((r' =? r) || (r' =? r + 1)) && (pow2' <=? pow10') &&
      (pow10' <=? 100 * pow2) && sizeinbase_table k nbits' pow2' r' pow10'
  end.

Definition SIZEINBASE_CHECKED_BITS : nat := 4096.

Definition after_sixteen_passes : worker :=
  iterations nextprime_ref (repeat (0%Q, 1%Q) 16)
    (worker_init args0 no_settings 0%Q).

(** ** Option handling *)

Module Table.

(** [stress_prime_method_t] *)
Record stress_prime_method_t : Type := mkMethod {
  name : String.string;
  prime_method : Z
}.

End Table.

Definition stress_prime_methods : list Table.stress_prime_method_t :=
  [ Table.mkMethod "factorial" STRESS_PRIME_METHOD_FACTORIAL;
    Table.mkMethod "inc" STRESS_PRIME_METHOD_INC;
    Table.mkMethod "pwr2" STRESS_PRIME_METHOD_PWR2;
    Table.mkMethod "pwr10" STRESS_PRIME_METHOD_PWR10 ]%string.

(** Modelled from the spec: [stress_set_setting] is declared in
    stress-ng.h; it stores the value under the name that
    [stress_get_setting] looks up. *)
Definition stress_set_setting_prime_method (v : Z) (s : settings) : settings :=
  mkSettings (Some v) (setting_prime_progress s).

(** The first loop of [stress_set_prime_method]: the entry of the first
    name that [strcmp] finds equal. *)
Fixpoint lookup_method (methods : list Table.stress_prime_method_t)
    (name : String.string) : option Table.stress_prime_method_t :=
  match methods with
  | [] => None
  | e :: methods' =>
      if String.eqb (Table.name e) name then Some e
      else lookup_method methods' name
  end.

Definition newline : String.string :=
  String.String (Ascii.ascii_of_nat 10) String.EmptyString.

(** What [stress_set_prime_method] writes to [stderr] when no name
    matches, one string for each [fprintf]. *)
Definition must_be_one_of (methods : list Table.stress_prime_method_t)
  : list String.string :=
  "prime-method must be one of:"%string ::
  map (fun e => String.append " " (Table.name e)) methods ++ [newline].

(** [stress_set_prime_method]: the return value, the settings and
    [stderr] afterwards. *)
Definition stress_set_prime_method (name : String.string) (s : settings)
    (stderr : list String.string) : Z * settings * list String.string :=
  match lookup_method stress_prime_methods name with
  | Some e => (0, stress_set_setting_prime_method (Table.prime_method e) s,
               stderr)
  | None => (-1, s, stderr ++ must_be_one_of stress_prime_methods)
  end.

(** ** Invariants of the machine *)

(** What the handler's counter and [jumped] have to do with each other. *)
Definition jump_inv (w : worker) : Prop :=
  0 <= count w /\ jumped w = (1 <? count w).

(** Past [finish] a worker that did not jump has released its variables. *)
Definition released_inv (m : machine) : Prop :=
  (pc m = L_report \/ pc m = L_return) -> jumped (vars m) = false ->
  mpz_live (vars m) = false.

(** The integers are live in the loop, and [finish] finds them cleared
    only after a jump, when it leaves them alone. *)
Definition live_inv (m : machine) : Prop :=
  (in_loop (pc m) = true -> mpz_live (vars m) = true) /\
  (pc m = L_finish -> mpz_live (vars m) = false -> jumped (vars m) = true).


(** Statements left before the worker returns, once the loop condition can
    only fail. *)
Definition statements_left (l : label) : nat :=
  match l with
  | L_time1 => 10 | L_nextprime => 9 | L_time2 => 8 | L_switch => 7
  | L_bogo_inc => 6 | L_sizeinbase => 5 | L_progress => 4 | L_while => 3
  | L_finish => 2 | L_report => 1 | L_return => 0
  end.


(** What the sinks may be handed: a count that fits [uint64_t], a length
    of at least one digit, a rate that is not negative. *)
Definition output_ok (o : output) : Prop :=
  match o with
  | Progress _ found len => 0 <= found < 2 ^ 64 /\ 1 <= len
  | Summary found len => 0 <= found < 2 ^ 64 /\ 1 <= len
  | Metric rate => (0 <= rate)%Q
  end.

Definition range_inv (w : worker) : Prop :=
  0 <= counter w < 2 ^ 64 /\ 1 <= digits w /\ Forall output_ok (out w).

(** The clock readings of a pass are in order when [t1] was read no later
    than [t]. *)
Definition clock_inv (t : Q) (m : machine) : Prop :=
  (0 <= duration (vars m))%Q /\
  (pc m = L_nextprime \/ pc m = L_time2 -> (t1 (vars m) <= t)%Q).

(** The time between the two clock readings of each pass, summed. *)
Fixpoint elapsed (ts : list (Q * Q)) : Q :=
  match ts with
  | [] => 0%Q
  | t :: ts' => ((snd t - fst t) + elapsed ts')%Q
  end.

(** ** More sample runs *)

Definition two_passes : list (Q * Q) := [(0%Q, 1%Q); (1%Q, 2%Q)].

(** One signal in the second statement of the first pass, then the two
    statements after the loop. *)
Definition one_alarm_events : list event :=
  pass_with_alarm 2 0 1 ++ [Run 1%Q; Run 1%Q].


Definition ten_readings : list Q := repeat 0%Q 10.

Definition args_two_ops : stress_args_t := mkArgs 0 2.

(** * Properties *)

Ltac break_ifs :=
  repeat match goal with
         | |- context [if ?c then _ else _] => destruct c
         end.

(** ** The machine *)

Lemma passes_nil (body : Q -> Q -> worker -> worker) (w : worker) :
  passes body [] w = w.
Proof. reflexivity. Qed.

Lemma passes_cons (body : Q -> Q -> worker -> worker) (t : Q * Q)
    (ts : list (Q * Q)) (w : worker) :
  passes body (t :: ts) w = passes body ts (body (fst t) (snd t) w).
Proof. reflexivity. Qed.

Section Machine.

Variable nextprime : Z -> Z.

Lemma run_app (evs1 evs2 : list event) (m : machine) :
  run nextprime (evs1 ++ evs2) m = run nextprime evs2 (run nextprime evs1 m).
Proof. apply fold_left_app. Qed.

Lemma run_cons (e : event) (evs : list event) (m : machine) :
  run nextprime (e :: evs) m = run nextprime evs (step nextprime e m).
Proof. reflexivity. Qed.

(** A pass without a signal is the loop body followed by the test of the
    loop condition. *)
Lemma run_pass (now1 now2 : Q) (w : worker) :
  run nextprime (pass now1 now2) (Machine L_time1 w) =
  let w' := loop_body nextprime now1 now2 w in
  Machine (if stress_continue w' then L_time1 else L_finish) w'.
Proof.
  unfold pass, loop_body. cbn [run fold_left step exec pc vars].
  reflexivity.
Qed.

Lemma iterations_nil (w : worker) : iterations nextprime [] w = w.
Proof. exact (passes_nil (loop_body nextprime) w). Qed.

Lemma iterations_cons (t : Q * Q) (ts : list (Q * Q)) (w : worker) :
  iterations nextprime (t :: ts) w =
  iterations nextprime ts (loop_body nextprime (fst t) (snd t) w).
Proof. exact (passes_cons (loop_body nextprime) t ts w). Qed.

(** *** What the loop body does to the variables *)

Lemma loop_body_value (now1 now2 : Q) (w : worker) :
  value (loop_body nextprime now1 now2 w) = nextprime (start w).
Proof.
  unfold loop_body, progress_check, switch_prime_method.
  break_ifs; reflexivity.
Qed.

Lemma switch_growth (w : worker) :
  switch_prime_method w =
  let g := growth (prime_method w) (start w) (value w) (factorial w) in
  set_factorial (snd g) (set_start (fst g) w).
Proof.
  unfold switch_prime_method, growth, factorial_arm.
  break_ifs; reflexivity.
Qed.

Lemma loop_body_growth (now1 now2 : Q) (w : worker) :
  start (loop_body nextprime now1 now2 w) =
    fst (growth (prime_method w) (start w) (nextprime (start w))
           (factorial w)) /\
  factorial (loop_body nextprime now1 now2 w) =
    snd (growth (prime_method w) (start w) (nextprime (start w))
           (factorial w)).
Proof.
  unfold loop_body, progress_check.
  rewrite switch_growth. cbv zeta.
  match goal with
  | |- context [if ?c then _ else _] => destruct c
  end; split; reflexivity.
Qed.

Lemma loop_body_counter (now1 now2 : Q) (w : worker) :
  counter (loop_body nextprime now1 now2 w) = uint64 (counter w + 1).
Proof.
  unfold loop_body, progress_check, switch_prime_method.
  break_ifs; reflexivity.
Qed.

Lemma loop_body_digits (now1 now2 : Q) (w : worker) :
  digits (loop_body nextprime now1 now2 w) =
  Gmp.mpz_sizeinbase10 (nextprime (start w)).
Proof.
  unfold loop_body, progress_check, switch_prime_method.
  break_ifs; reflexivity.
Qed.

(** The arguments, the settings and the state of the signal handler are
    out of reach of the loop body. *)
Lemma loop_body_frame (now1 now2 : Q) (w : worker) :
  prime_method (loop_body nextprime now1 now2 w) = prime_method w /\
  prime_progress (loop_body nextprime now1 now2 w) = prime_progress w /\
  instance (loop_body nextprime now1 now2 w) = instance w /\
  max_ops (loop_body nextprime now1 now2 w) = max_ops w /\
  continue_flag (loop_body nextprime now1 now2 w) = continue_flag w /\
  count (loop_body nextprime now1 now2 w) = count w /\
  jumped (loop_body nextprime now1 now2 w) = jumped w /\
  mpz_live (loop_body nextprime now1 now2 w) = mpz_live w.
Proof.
  unfold loop_body, progress_check, switch_prime_method.
  break_ifs; repeat split; reflexivity.
Qed.

End Machine.

(** ** Growth step *)

(** C10: a method code outside the four enumerated ones takes the
    [default:] label, which is the arm of the factorial method:
    [start' = start * factorial], [factorial' = factorial + 1], nothing
    else changes; whereas a worker without a configured method runs with
    the increment method. *)
Theorem switch_default_is_factorial (w : worker) :
  prime_method w <> STRESS_PRIME_METHOD_FACTORIAL ->
  prime_method w <> STRESS_PRIME_METHOD_INC ->
  prime_method w <> STRESS_PRIME_METHOD_PWR2 ->
  prime_method w <> STRESS_PRIME_METHOD_PWR10 ->
  switch_prime_method w = factorial_arm w /\
  start (switch_prime_method w) = start w * factorial w /\
  factorial (switch_prime_method w) = factorial w + 1 /\
  (forall w0, prime_method w0 = STRESS_PRIME_METHOD_FACTORIAL ->
              switch_prime_method w0 = factorial_arm w0) /\
  (forall a progress now,
      prime_method (worker_init a (mkSettings None progress) now) =
      STRESS_PRIME_METHOD_INC).
Proof.
  intros H0 H1 H2 H3.
  assert (E : switch_prime_method w = factorial_arm w).
  { unfold switch_prime_method.
    destruct (Z.eqb_spec (prime_method w) STRESS_PRIME_METHOD_FACTORIAL);
      [reflexivity|].
    destruct (Z.eqb_spec (prime_method w) STRESS_PRIME_METHOD_INC);
      [contradiction|].
    destruct (Z.eqb_spec (prime_method w) STRESS_PRIME_METHOD_PWR2);
      [contradiction|].
    destruct (Z.eqb_spec (prime_method w) STRESS_PRIME_METHOD_PWR10);
      [contradiction|reflexivity]. }
  rewrite E. split; [reflexivity|]. split; [reflexivity|].
  split; [reflexivity|]. split.
  - intros w0 Hw0. unfold switch_prime_method. rewrite Hw0. reflexivity.
  - intros a progress now. reflexivity.
Qed.

Lemma switch_default_is_factorial_witness :
  let w := worker_init args0 (with_method 7) 0%Q in
  prime_method w = 7 /\
  start (switch_prime_method w) = 2 /\
  factorial (switch_prime_method w) = 3.
Proof.
  split; [reflexivity|].
  destruct (switch_default_is_factorial (worker_init args0 (with_method 7) 0%Q))
    as (_ & Hs & Hf & _); try (intros H; discriminate H).
  split; [exact Hs | exact Hf].
Defined.

(** C7: with the increment method the candidate after a pass is the prime
    just found plus two. *)
Theorem increment_next_candidate (nextprime : Z -> Z) (now1 now2 : Q)
    (w : worker) :
  prime_method w = STRESS_PRIME_METHOD_INC ->
  let w' := loop_body nextprime now1 now2 w in
  value w' = nextprime (start w) /\ start w' = value w' + 2.
Proof.
  intros Hm w'. subst w'. rewrite loop_body_value.
  split; [reflexivity|].
  destruct (loop_body_growth nextprime now1 now2 w) as [Hg _].
  rewrite Hg, Hm. reflexivity.
Qed.

Lemma increment_next_candidate_witness :
  let w := worker_init args0 no_settings 0%Q in
  prime_method w = STRESS_PRIME_METHOD_INC /\
  value (loop_body nextprime_ref 0 1 w) = 2 /\
  start (loop_body nextprime_ref 0 1 w) = 4.
Proof.
  split; [reflexivity|].
  destruct (increment_next_candidate nextprime_ref 0%Q 1%Q
              (worker_init args0 no_settings 0%Q) eq_refl) as [Hv Hs].
  split; [exact Hv|]. rewrite Hs, Hv. reflexivity.
Defined.

(** ** Rate *)

(** C3: the report hands over [ops / duration] when the duration is
    positive and 0 when it is zero; 1000 operations in 10 seconds make a
    rate of 100. *)
Theorem reported_rate (w : worker) :
  out (report w) =
    out w ++ [Summary (stress_bogo_get w) (digits w);
              Metric (rate_of (stress_bogo_get w) (duration w))] /\
  (forall ops dur, (0 < dur)%Q -> (rate_of ops dur == inject_Z ops / dur)%Q) /\
  (forall ops dur, (dur == 0)%Q -> (rate_of ops dur == 0)%Q) /\
  (rate_of 1000 10 == 100)%Q.
Proof.
  split; [reflexivity|].
  split; [|split].
  - intros ops dur Hd. unfold rate_of.
    destruct (Qle_bool dur 0) eqn:E; cbn [negb]; [|reflexivity].
    apply Qle_bool_iff in E. exfalso. apply (Qlt_irrefl 0%Q).
    eapply Qlt_le_trans; eassumption.
  - intros ops dur Hd. unfold rate_of.
    destruct (Qle_bool dur 0) eqn:E; cbn [negb]; [reflexivity|].
    exfalso. assert (Hle : (dur <= 0)%Q) by (rewrite Hd; apply Qle_refl).
    apply Qle_bool_iff in Hle. congruence.
  - reflexivity.
Qed.

Lemma reported_rate_witness :
  (0 < 10)%Q /\ (rate_of 1000 10 == inject_Z 1000 / 10)%Q /\
  (0 == 0)%Q /\ (rate_of 1000 0 == 0)%Q.
Proof.
  destruct (reported_rate (worker_init args0 no_settings 0%Q))
    as (_ & Hpos & Hzero & _).
  assert (H10 : (0 < 10)%Q) by reflexivity.
  assert (H0 : (0 == 0)%Q) by reflexivity.
  split; [exact H10|]. split; [exact (Hpos 1000 10%Q H10)|].
  split; [exact H0 | exact (Hzero 1000 0%Q H0)].
Defined.

(** ** What a single step does to the output and the threshold *)

Section Steps.

Variable nextprime : Z -> Z.

Lemma handler_vars (m : machine) :
  vars (stress_prime_alarm_handler m) =
  (if 1 <? count (vars m) + 1 then set_jumped true else fun w => w)
    (set_count (count (vars m) + 1) (set_continue_flag false (vars m))).
Proof.
  unfold stress_prime_alarm_handler, siglongjmp, stress_continue_set_flag.
  change (count (set_count (count (set_continue_flag false (vars m)) + 1)
                   (set_continue_flag false (vars m))))
    with (count (vars m) + 1).
  destruct (1 <? count (vars m) + 1); reflexivity.
Qed.

Lemma step_prime_progress (e : event) (m : machine) :
  prime_progress (vars (step nextprime e m)) = prime_progress (vars m).
Proof.
  destruct e as [now|]; unfold step.
  - unfold exec. destruct (pc m); cbn [vars];
      unfold switch_prime_method, progress_check, finish;
      break_ifs; reflexivity.
  - destruct (label_eqb (pc m) L_return); [reflexivity|].
    rewrite handler_vars. break_ifs; reflexivity.
Qed.

(** A step leaves output and threshold alone, or it is the report, or it
    is a progress line, fired with [t2] at or past the threshold, which
    then moves on by the increment. *)
Lemma step_out (e : event) (m : machine) :
  let w := vars m in
  let w' := vars (step nextprime e m) in
  (out w' = out w /\ t_progress_secs w' = t_progress_secs w) \/
  (out w' =
     out w ++ [Summary (stress_bogo_get w) (digits w);
               Metric (rate_of (stress_bogo_get w) (duration w))] /\
   t_progress_secs w' = t_progress_secs w) \/
  (prime_progress w = true /\
   (t_progress_secs w <= t2 w)%Q /\
   t_progress_secs w' =
     (t_progress_secs w + STRESS_PRIME_PROGRESS_INC_SECS)%Q /\
   out w' = out w ++ [Progress (t2 w) (stress_bogo_get w) (digits w)]).
Proof.
  cbv zeta. destruct e as [now|]; unfold step.
  - unfold exec. destruct (pc m) eqn:Hpc; cbn [vars];
      try (left; unfold switch_prime_method, finish; break_ifs;
           split; reflexivity).
    + unfold progress_check.
      destruct (prime_progress (vars m)) eqn:Hp; cbn [andb];
        [|left; split; reflexivity].
      destruct (Qle_bool (t_progress_secs (vars m)) (t2 (vars m))) eqn:Hq;
        [|left; split; reflexivity].
      right; right. apply Qle_bool_iff in Hq.
      split; [reflexivity|]. split; [exact Hq|]. split; reflexivity.
    + right; left. split; reflexivity.
  - left. destruct (label_eqb (pc m) L_return); [split; reflexivity|].
    rewrite handler_vars. break_ifs; split; reflexivity.
Qed.

End Steps.

(** ** Progress reporter *)

Lemma progress_times_app (o1 o2 : list output) :
  progress_times (o1 ++ o2) = progress_times o1 ++ progress_times o2.
Proof.
  induction o1 as [|o o1 IH]; [reflexivity|].
  destruct o; cbn [progress_times app]; rewrite IH; reflexivity.
Qed.

Lemma silent_worker_stays_silent (nextprime : Z -> Z) (evs : list event)
    (m : machine) :
  prime_progress (vars m) = false ->
  filter is_progress (out (vars (run nextprime evs m))) =
  filter is_progress (out (vars m)).
Proof.
  revert m. induction evs as [|e evs IH]; intros m Hp; [reflexivity|].
  rewrite run_cons.
  rewrite IH by (rewrite step_prime_progress; exact Hp).
  destruct (step_out nextprime e m) as [[Ho _]|[[Ho _]|(Hp' & _)]].
  - rewrite Ho. reflexivity.
  - rewrite Ho, filter_app. cbn [filter is_progress]. apply app_nil_r.
  - congruence.
Qed.

(** C9: a worker whose instance index is positive never emits a progress
    line, whatever its settings and whatever happens to it. *)
Theorem only_instance_zero_reports_progress (nextprime : Z -> Z)
    (a : stress_args_t) (s : settings) (now : Q) (evs : list event) :
  0 < args_instance a ->
  filter is_progress (out (vars (run nextprime evs (loop_entry a s now)))) = [].
Proof.
  intros Hi. rewrite silent_worker_stays_silent; [reflexivity|].
  unfold loop_entry, worker_init. cbn [vars prime_progress].
  destruct (Z.gtb_spec (args_instance a) 0); [reflexivity|lia].
Qed.

Lemma only_instance_zero_reports_progress_witness :
  0 < args_instance args1 /\
  filter is_progress
    (out (vars (run nextprime_ref burst_events
                  (loop_entry args1 with_progress 0%Q)))) = [].
Proof.
  assert (H : 0 < args_instance args1) by reflexivity.
  split; [exact H|].
  exact (only_instance_zero_reports_progress nextprime_ref args1 with_progress
           0%Q burst_events H).
Defined.

Lemma threshold_after_S (t0 : Q) (k : nat) :
  (threshold_after t0 (S k) ==
   threshold_after t0 k + STRESS_PRIME_PROGRESS_INC_SECS)%Q.
Proof.
  unfold threshold_after, STRESS_PRIME_PROGRESS_INC_SECS.
  replace (60 * Z.of_nat (S k)) with (60 * Z.of_nat k + 60) by lia.
  rewrite inject_Z_plus. change (inject_Z 60) with 60%Q. ring.
Qed.

Lemma progress_inv_step (nextprime : Z -> Z) (t0 : Q) (e : event)
    (m : machine) :
  progress_inv t0 (vars m) -> progress_inv t0 (vars (step nextprime e m)).
Proof.
  intros [Hthr Hnth].
  destruct (step_out nextprime e m)
    as [[Ho Ht]|[[Ho Ht]|(_ & Hle & Ht & Ho)]]; unfold progress_inv.
  - rewrite Ho, Ht. split; assumption.
  - rewrite Ho, Ht, progress_times_app. cbn [progress_times].
    rewrite app_nil_r. split; assumption.
  - rewrite Ho, Ht, progress_times_app. cbn [progress_times]. split.
    + rewrite length_app. cbn [length]. rewrite Nat.add_1_r.
      rewrite (threshold_after_S t0 (S _)), Hthr. reflexivity.
    + intros k t Hk.
      destruct (Nat.lt_ge_cases k (length (progress_times (out (vars m)))))
        as [Hlt|Hge].
      * rewrite nth_error_app1 in Hk by exact Hlt. apply Hnth. exact Hk.
      * rewrite nth_error_app2 in Hk by exact Hge.
        destruct (k - length (progress_times (out (vars m))))%nat
          as [|d] eqn:Hd.
        -- cbn in Hk. injection Hk as <-.
           assert (k = length (progress_times (out (vars m)))) by lia.
           subst k. rewrite <- Hthr. exact Hle.
        -- cbn in Hk. destruct d; discriminate.
Qed.

Lemma progress_inv_run (nextprime : Z -> Z) (t0 : Q) (evs : list event)
    (m : machine) :
  progress_inv t0 (vars m) -> progress_inv t0 (vars (run nextprime evs m)).
Proof.
  revert m. induction evs as [|e evs IH]; intros m Hm; [exact Hm|].
  rewrite run_cons. apply IH. apply progress_inv_step. exact Hm.
Qed.

Lemma burst_run :
  progress_times
    (out (vars (run nextprime_ref burst_events
                  (loop_entry args0 with_progress 0%Q))))
  = [200%Q; 201%Q].
Proof. vm_compute. reflexivity. Qed.

(** C4, as stated, fails: after a search step that overran the threshold
    by more than the increment the next pass fires again at once, one time
    unit after the first emission, although the clock never ran
    backwards. *)
Lemma progress_emissions_can_burst :
  monotone_clock 0%Q burst_events /\
  ~ spaced STRESS_PRIME_PROGRESS_INC_SECS
      (progress_times
         (out (vars (run nextprime_ref burst_events
                       (loop_entry args0 with_progress 0%Q))))).
Proof.
  split.
  - cbn. repeat split; discriminate.
  - rewrite burst_run. intros H.
    specialize (H 0%nat 1%nat 200%Q 201%Q (Nat.lt_0_1) eq_refl eq_refl).
    revert H. vm_compute. intros H. apply H. reflexivity.
Qed.

(** C4, amended: the threshold moves by exactly the increment at a firing
    and at nothing else, it is never reset from the clock, and the [k]-th
    emission (counting from one) happens at a [t2] of at least
    [t0 + 60 * k], where [t0] is the clock reading the threshold was
    initialised from. *)
Theorem progress_threshold_advances (nextprime : Z -> Z) (a : stress_args_t)
    (s : settings) (t0 : Q) (evs : list event) (e : event) :
  let m := run nextprime evs (loop_entry a s t0) in
  let w := vars m in
  let w' := vars (step nextprime e m) in
  ((progress_times (out w') = progress_times (out w) /\
    t_progress_secs w' = t_progress_secs w) \/
   (progress_times (out w') = progress_times (out w) ++ [t2 w] /\
    (t_progress_secs w <= t2 w)%Q /\
    t_progress_secs w' =
      (t_progress_secs w + STRESS_PRIME_PROGRESS_INC_SECS)%Q)) /\
  (t_progress_secs w ==
   t0 + 60 * inject_Z (Z.of_nat (S (length (progress_times (out w))))))%Q /\
  (forall k t, nth_error (progress_times (out w)) k = Some t ->
               (t0 + 60 * inject_Z (Z.of_nat (S k)) <= t)%Q).
Proof.
  intros m w w'.
  assert (Hinv : progress_inv t0 w).
  { apply progress_inv_run. split.
    - unfold loop_entry, worker_init, threshold_after,
        STRESS_PRIME_PROGRESS_INC_SECS.
      cbn [vars t_progress_secs out progress_times length].
      reflexivity.
    - intros k t Hk. destruct k; discriminate. }
  split; [|split].
  - subst w w'.
    destruct (step_out nextprime e m)
      as [[Ho Ht]|[[Ho Ht]|(_ & Hle & Ht & Ho)]].
    + left. rewrite Ho, Ht. split; reflexivity.
    + left. rewrite Ho, Ht, progress_times_app. cbn [progress_times].
      rewrite app_nil_r. split; reflexivity.
    + right. rewrite Ho, Ht, progress_times_app. cbn [progress_times].
      split; [reflexivity|]. split; [exact Hle|reflexivity].
  - destruct Hinv as [Hthr _]. unfold threshold_after in Hthr.
    rewrite inject_Z_mult in Hthr. exact Hthr.
  - intros k t Hk. destruct Hinv as [_ Hnth]. specialize (Hnth k t Hk).
    unfold threshold_after in Hnth. rewrite inject_Z_mult in Hnth.
    exact Hnth.
Qed.

Lemma progress_threshold_advances_witness :
  nth_error
    (progress_times
       (out (vars (run nextprime_ref burst_events
                     (loop_entry args0 with_progress 0%Q))))) 1
  = Some 201%Q /\
  (0 + 60 * inject_Z (Z.of_nat 2) <= 201)%Q.
Proof.
  assert (E : nth_error
                (progress_times
                   (out (vars (run nextprime_ref burst_events
                                 (loop_entry args0 with_progress 0%Q))))) 1
              = Some 201%Q) by (rewrite burst_run; reflexivity).
  split; [exact E|].
  destruct (progress_threshold_advances nextprime_ref args0 with_progress 0%Q
              burst_events SIGALRM) as (_ & _ & H).
  exact (H 1%nat 201%Q E).
Defined.

(** ** Operation count *)

Lemma iterations_counter (nextprime : Z -> Z) (ts : list (Q * Q))
    (w : worker) :
  uint64 (counter (iterations nextprime ts w)) =
  uint64 (counter w + Z.of_nat (length ts)).
Proof.
  revert w. induction ts as [|t ts IH]; intros w.
  - rewrite iterations_nil, Z.add_0_r. reflexivity.
  - rewrite iterations_cons, IH, loop_body_counter, length_cons.
    unfold uint64. rewrite Zplus_mod_idemp_l. f_equal. lia.
Qed.

Lemma iterations_counter_range (nextprime : Z -> Z) (ts : list (Q * Q))
    (w : worker) :
  0 <= counter w < 2 ^ 64 ->
  0 <= counter (iterations nextprime ts w) < 2 ^ 64.
Proof.
  revert w. induction ts as [|t ts IH]; intros w Hw;
    [rewrite iterations_nil; exact Hw|].
  rewrite iterations_cons. apply IH. rewrite loop_body_counter.
  unfold uint64. apply Z.mod_pos_bound. lia.
Qed.

Lemma iterations_from_entry (nextprime : Z -> Z) (a : stress_args_t)
    (s : settings) (now : Q) (ts : list (Q * Q)) :
  stress_bogo_get (iterations nextprime ts (worker_init a s now)) =
  Z.of_nat (length ts) mod 2 ^ 64.
Proof.
  unfold stress_bogo_get.
  rewrite <- (Z.mod_small (counter _) (2 ^ 64)).
  - apply (iterations_counter nextprime ts (worker_init a s now)).
  - apply iterations_counter_range.
    change (counter (worker_init a s now)) with 0. lia.
Qed.

(** Without a signal and without an operation budget, the machine goes
    round the loop once per pair of clock readings. *)
Lemma run_passes (nextprime : Z -> Z) (ts : list (Q * Q)) (w : worker) :
  continue_flag w = true -> max_ops w = 0 ->
  run nextprime (flat_map (fun t => pass (fst t) (snd t)) ts)
    (Machine L_time1 w) =
  Machine L_time1 (iterations nextprime ts w).
Proof.
  revert w. induction ts as [|t ts IH]; intros w Hc Hm;
    [reflexivity|].
  rewrite iterations_cons. cbn [flat_map].
  rewrite run_app, run_pass. cbv zeta.
  destruct (loop_body_frame nextprime (fst t) (snd t) w)
    as (_ & _ & _ & Hm' & Hc' & _).
  unfold stress_continue. rewrite Hc', Hm', Hc, Hm.
  cbn [andb orb Z.eqb]. apply IH; congruence.
Qed.

(** C8, as stated, fails when the count of passes leaves the range of the
    counter: after [2^64] passes the Operation Count is back at 0. *)
Lemma operation_count_wraps :
  stress_bogo_get
    (iterations nextprime_ref many_passes (worker_init args0 no_settings 0%Q))
  <> Z.of_nat (length many_passes).
Proof.
  assert (L : Z.of_nat (length many_passes) = 2 ^ 64).
  { unfold many_passes. rewrite repeat_length. apply Z2Nat.id. lia. }
  rewrite iterations_from_entry, L, Z.mod_same by lia. lia.
Qed.

(** C8, amended: each pass increments the counter once, so after [N]
    passes from the loop entry the Operation Count is [N] modulo [2^64],
    which is [N] itself for every [N] below [2^64]. *)
Theorem operation_count_after_iterations (nextprime : Z -> Z)
    (a : stress_args_t) (s : settings) (now : Q) (ts : list (Q * Q)) :
  let N := Z.of_nat (length ts) in
  let w := iterations nextprime ts (worker_init a s now) in
  stress_bogo_get w = N mod 2 ^ 64 /\
  (N < 2 ^ 64 -> stress_bogo_get w = N) /\
  (forall now1 now2,
      counter (loop_body nextprime now1 now2 w) = counter (stress_bogo_inc w)).
Proof.
  intros N w. subst N w. split; [|split].
  - apply iterations_from_entry.
  - intros HN. rewrite iterations_from_entry. apply Z.mod_small. lia.
  - intros now1 now2. apply loop_body_counter.
Qed.

Lemma operation_count_after_iterations_witness :
  Z.of_nat (length three_passes) < 2 ^ 64 /\
  stress_bogo_get
    (iterations nextprime_ref three_passes (worker_init args0 no_settings 0%Q))
  = Z.of_nat (length three_passes).
Proof.
  assert (H : Z.of_nat (length three_passes) < 2 ^ 64) by (cbn; lia).
  split; [exact H|].
  destruct (operation_count_after_iterations nextprime_ref args0 no_settings
              0%Q three_passes) as (_ & Hsmall & _).
  exact (Hsmall H).
Defined.

(** ** Cancellation *)

Section Cancellation.

Variable nextprime : Z -> Z.

Lemma step_after_return (e : event) (m : machine) :
  pc m = L_return -> step nextprime e m = m.
Proof.
  intros H. destruct e; unfold step, exec; rewrite H; reflexivity.
Qed.

Lemma run_after_return (evs : list event) (m : machine) :
  pc m = L_return -> run nextprime evs m = m.
Proof.
  induction evs as [|e evs IH]; intros H; [reflexivity|].
  rewrite run_cons, step_after_return by exact H. apply IH. exact H.
Qed.

(** The handler's counter counts the signals delivered. *)
Lemma step_count (e : event) (m : machine) :
  pc m <> L_return ->
  count (vars (step nextprime e m)) =
  count (vars m) + match e with SIGALRM => 1 | Run _ => 0 end.
Proof.
  intros H. destruct e as [now|]; unfold step.
  - unfold exec. destruct (pc m); cbn [vars];
      unfold switch_prime_method, progress_check, finish;
      break_ifs; symmetry; apply Z.add_0_r.
  - destruct (pc m); try contradiction; cbn [label_eqb];
      rewrite handler_vars; break_ifs; reflexivity.
Qed.

Lemma run_count (evs : list event) (m : machine) :
  pc (run nextprime evs m) <> L_return ->
  count (vars (run nextprime evs m)) = count (vars m) + count_alarms evs.
Proof.
  revert m. induction evs as [|e evs IH]; intros m H.
  - cbn [run fold_left count_alarms]. lia.
  - assert (Hm : pc m <> L_return).
    { intros Hr. apply H. rewrite run_after_return; exact Hr. }
    rewrite run_cons in *.
    rewrite IH by exact H. rewrite step_count by exact Hm.
    destruct e; cbn [count_alarms]; lia.
Qed.

(** The loop is never re-entered, and inside it nothing releases the
    arbitrary-precision variables. *)
Lemma step_in_loop (e : event) (m : machine) :
  in_loop (pc (step nextprime e m)) = true ->
  in_loop (pc m) = true /\
  mpz_live (vars (step nextprime e m)) = mpz_live (vars m).
Proof.
  destruct m as [l w]. destruct e as [now|]; unfold step.
  - unfold exec. cbn [pc vars]. destruct l;
      unfold switch_prime_method, progress_check;
      break_ifs; cbn [pc vars in_loop]; intros H; try discriminate H;
      split; reflexivity.
  - cbn [pc vars]. destruct l; cbn [label_eqb];
      unfold stress_prime_alarm_handler, siglongjmp; cbn [pc vars];
      break_ifs; cbn [pc vars in_loop]; intros H; try discriminate H;
      split; reflexivity.
Qed.

Lemma run_in_loop (evs : list event) (m : machine) :
  in_loop (pc (run nextprime evs m)) = true ->
  in_loop (pc m) = true /\
  mpz_live (vars (run nextprime evs m)) = mpz_live (vars m).
Proof.
  revert m. induction evs as [|e evs IH]; intros m H;
    [split; [exact H|reflexivity]|].
  rewrite run_cons in *. destruct (IH _ H) as [Hl Hv].
  destruct (step_in_loop e m Hl) as [Hl' Hv'].
  split; [exact Hl'|congruence].
Qed.

(** Statements of the worker do not touch the state of the signal
    handler. *)
Lemma exec_signal_state (now : Q) (m : machine) :
  count (vars (exec nextprime now m)) = count (vars m) /\
  jumped (vars (exec nextprime now m)) = jumped (vars m) /\
  continue_flag (vars (exec nextprime now m)) = continue_flag (vars m).
Proof.
  unfold exec. destruct (pc m); cbn [vars];
    unfold switch_prime_method, progress_check, finish;
    break_ifs; repeat split; reflexivity.
Qed.

Lemma count_alarms_nonneg (evs : list event) : 0 <= count_alarms evs.
Proof. induction evs as [|[|] evs IH]; cbn [count_alarms]; lia. Qed.

Lemma run_without_alarm (evs : list event) (m : machine) :
  count_alarms evs = 0 ->
  count (vars (run nextprime evs m)) = count (vars m) /\
  jumped (vars (run nextprime evs m)) = jumped (vars m) /\
  continue_flag (vars (run nextprime evs m)) = continue_flag (vars m).
Proof.
  revert m. induction evs as [|e evs IH]; intros m H.
  - repeat split; reflexivity.
  - destruct e as [now|]; cbn [count_alarms] in H.
    + rewrite run_cons. cbn [step].
      destruct (IH (exec nextprime now m) H) as (Hc & Hj & Hf).
      destruct (exec_signal_state now m) as (Hc' & Hj' & Hf').
      rewrite Hc, Hj, Hf, Hc', Hj', Hf'. repeat split; reflexivity.
    + pose proof (count_alarms_nonneg evs). lia.
Qed.

End Cancellation.

(** *** The first signal *)

Section FirstSignal.

Variable nextprime : Z -> Z.

Lemma handler_no_jump (m : machine) :
  count (vars m) = 0 ->
  stress_prime_alarm_handler m = Machine (pc m) (alarm_vars (vars m)).
Proof.
  intros H. unfold stress_prime_alarm_handler, stress_continue_set_flag.
  change (count (set_count (count (set_continue_flag false (vars m)) + 1)
                   (set_continue_flag false (vars m))))
    with (count (vars m) + 1).
  rewrite H. reflexivity.
Qed.

Lemma handler_jump (m : machine) :
  count (vars m) = 1 ->
  stress_prime_alarm_handler m =
  Machine L_finish (set_jumped true (alarm_vars (vars m))).
Proof.
  intros H. unfold stress_prime_alarm_handler, stress_continue_set_flag.
  change (count (set_count (count (set_continue_flag false (vars m)) + 1)
                   (set_continue_flag false (vars m))))
    with (count (vars m) + 1).
  rewrite H. reflexivity.
Qed.

(** The statements of the loop body neither read nor write what the
    handler writes. *)
Lemma time1_alarm (now : Q) (w : worker) :
  stmt_time1 now (alarm_vars w) = alarm_vars (stmt_time1 now w).
Proof. reflexivity. Qed.

Lemma nextprime_alarm (w : worker) :
  stmt_nextprime nextprime (alarm_vars w) =
  alarm_vars (stmt_nextprime nextprime w).
Proof. reflexivity. Qed.

Lemma time2_alarm (now : Q) (w : worker) :
  stmt_time2 now (alarm_vars w) = alarm_vars (stmt_time2 now w).
Proof. reflexivity. Qed.

Lemma switch_alarm (w : worker) :
  switch_prime_method (alarm_vars w) = alarm_vars (switch_prime_method w).
Proof.
  unfold switch_prime_method.
  change (prime_method (alarm_vars w)) with (prime_method w).
  break_ifs; reflexivity.
Qed.

Lemma bogo_inc_alarm (w : worker) :
  stress_bogo_inc (alarm_vars w) = alarm_vars (stress_bogo_inc w).
Proof. reflexivity. Qed.

Lemma sizeinbase_alarm (w : worker) :
  stmt_sizeinbase (alarm_vars w) = alarm_vars (stmt_sizeinbase w).
Proof. reflexivity. Qed.

Lemma progress_alarm (w : worker) :
  progress_check (alarm_vars w) = alarm_vars (progress_check w).
Proof.
  unfold progress_check.
  change (prime_progress (alarm_vars w)) with (prime_progress w).
  change (t_progress_secs (alarm_vars w)) with (t_progress_secs w).
  change (t2 (alarm_vars w)) with (t2 w).
  break_ifs; reflexivity.
Qed.

Lemma continue_alarm (w : worker) : stress_continue (alarm_vars w) = false.
Proof. reflexivity. Qed.

Lemma count_time1 (now : Q) (w : worker) :
  count (stmt_time1 now w) = count w.
Proof. reflexivity. Qed.

Lemma count_nextprime (w : worker) :
  count (stmt_nextprime nextprime w) = count w.
Proof. reflexivity. Qed.

Lemma count_time2 (now : Q) (w : worker) :
  count (stmt_time2 now w) = count w.
Proof. reflexivity. Qed.

Lemma count_switch (w : worker) : count (switch_prime_method w) = count w.
Proof. unfold switch_prime_method. break_ifs; reflexivity. Qed.

Lemma count_bogo_inc (w : worker) : count (stress_bogo_inc w) = count w.
Proof. reflexivity. Qed.

Lemma count_sizeinbase (w : worker) : count (stmt_sizeinbase w) = count w.
Proof. reflexivity. Qed.

Lemma count_progress (w : worker) : count (progress_check w) = count w.
Proof. unfold progress_check. break_ifs; reflexivity. Qed.

Lemma run_pass_with_alarm (k : nat) (now1 now2 : Q) (m : machine) :
  run nextprime (pass_with_alarm k now1 now2) m =
  run nextprime (skipn k (pass now1 now2))
    (step nextprime SIGALRM
       (run nextprime (firstn k (pass now1 now2)) m)).
Proof. unfold pass_with_alarm. rewrite run_app, run_cons. reflexivity. Qed.

Ltac alarm_case Hc :=
  unfold pass; cbn [firstn skipn];
  cbn [run fold_left step exec pc vars label_eqb];
  rewrite handler_no_jump
    by (cbn [vars];
        rewrite ?count_progress, ?count_sizeinbase, ?count_bogo_inc,
          ?count_switch, ?count_time2, ?count_nextprime, ?count_time1;
        exact Hc);
  cbn [run fold_left step exec pc vars];
  rewrite ?time1_alarm, ?nextprime_alarm, ?time2_alarm, ?switch_alarm,
    ?bogo_inc_alarm, ?sizeinbase_alarm, ?progress_alarm, ?continue_alarm;
  reflexivity.

(** Wherever in a pass the first signal arrives, the pass runs to its
    end as it would have without the signal, and the loop is left. *)
Lemma alarm_in_pass (k : nat) (now1 now2 : Q) (w : worker) :
  (k < 8)%nat -> count w = 0 ->
  run nextprime (pass_with_alarm k now1 now2) (Machine L_time1 w) =
  Machine L_finish (alarm_vars (loop_body nextprime now1 now2 w)).
Proof.
  intros Hk Hc. rewrite run_pass_with_alarm. unfold loop_body.
  destruct k as [|[|[|[|[|[|[|[|k]]]]]]]]; try lia; alarm_case Hc.
Qed.

End FirstSignal.

Lemma first_alarm_exit (nextprime : Z -> Z) (w : worker) (k : nat)
    (now1 now2 : Q) :
  count w = 0 -> (k < 8)%nat ->
  run nextprime (pass_with_alarm k now1 now2) (Machine L_time1 w) =
  Machine L_finish
    (set_count 1 (set_continue_flag false (loop_body nextprime now1 now2 w))).
Proof.
  intros Hc Hk.
  rewrite alarm_in_pass by assumption.
  unfold alarm_vars.
  destruct (loop_body_frame nextprime now1 now2 w)
    as (_ & _ & _ & _ & _ & Hcb & _).
  rewrite Hcb, Hc. reflexivity.
Qed.

Lemma leave_after_first_alarm (nextprime : Z -> Z) (now3 now4 : Q) (wb : worker) :
  jumped wb = false ->
  let mx := Machine L_finish (set_count 1 (set_continue_flag false wb)) in
  let mf := run nextprime [Run now3; Run now4] mx in
  jumped (vars mx) = false /\
  mf = Machine L_return (report (set_mpz_live false (vars mx))) /\
  jumped (vars mf) = false /\
  mpz_live (vars mf) = false /\
  out (vars mf) =
    out wb ++ [Summary (stress_bogo_get wb) (digits wb);
               Metric (rate_of (stress_bogo_get wb) (duration wb))].
Proof.
  intros Hjb. cbv zeta.
  cbn [run fold_left step exec pc vars].
  assert (Hf : finish (set_count 1 (set_continue_flag false wb)) =
               set_mpz_live false (set_count 1 (set_continue_flag false wb))).
  { unfold finish.
    change (jumped (set_count 1 (set_continue_flag false wb)))
      with (jumped wb).
    rewrite Hjb. reflexivity. }
  rewrite Hf.
  split; [rewrite <- Hjb; reflexivity|].
  split; [reflexivity|]. split; [rewrite <- Hjb; reflexivity|].
  split; reflexivity.
Qed.

(** C2: when the first signal arrives during a pass (after [k] of its
    eight statements, the worker having seen no signal before), the pass is
    completed exactly as the loop body prescribes, the loop condition then
    fails, and the worker leaves through [finish] with [jumped] false,
    releases its arbitrary-precision variables and reports. *)
Theorem first_alarm_completes_pass (nextprime : Z -> Z) (a : stress_args_t)
    (s : settings) (t0 : Q) (evs : list event) (k : nat)
    (now1 now2 now3 now4 : Q) (m : machine) :
  m = run nextprime evs (loop_entry a s t0) ->
  pc m = L_time1 -> count_alarms evs = 0 -> (k < 8)%nat ->
  let wb := loop_body nextprime now1 now2 (vars m) in
  let mx := run nextprime (pass_with_alarm k now1 now2) m in
  let mf := run nextprime [Run now3; Run now4] mx in
  mx = Machine L_finish (set_count 1 (set_continue_flag false wb)) /\
  jumped (vars mx) = false /\
  mf = Machine L_return (report (set_mpz_live false (vars mx))) /\
  jumped (vars mf) = false /\
  mpz_live (vars mf) = false /\
  out (vars mf) =
    out wb ++ [Summary (stress_bogo_get wb) (digits wb);
               Metric (rate_of (stress_bogo_get wb) (duration wb))].
Proof.
  intros Hm Hpc Ha Hk.
  destruct (run_without_alarm nextprime evs (loop_entry a s t0) Ha)
    as (Hc & Hj & _).
  rewrite <- Hm in Hc, Hj. clear Hm.
  change (count (vars (loop_entry a s t0))) with 0 in Hc.
  change (jumped (vars (loop_entry a s t0))) with false in Hj.
  destruct m as [l w]. cbn [pc vars] in Hpc, Hc, Hj. subst l.
  cbv zeta. cbn [vars].
  rewrite (first_alarm_exit nextprime w k now1 now2 Hc Hk).
  split; [reflexivity|].
  apply leave_after_first_alarm.
  destruct (loop_body_frame nextprime now1 now2 w)
    as (_ & _ & _ & _ & _ & _ & Hjb & _).
  rewrite Hjb. exact Hj.
Qed.

Lemma first_alarm_completes_pass_witness :
  let m := run nextprime_ref (pass 0 1) (loop_entry args0 no_settings 0%Q) in
  let mx := run nextprime_ref (pass_with_alarm 2 1 2) m in
  pc m = L_time1 /\ count_alarms (pass 0 1) = 0 /\ (2 < 8)%nat /\
  pc mx = L_finish /\
  mpz_live (vars (run nextprime_ref [Run 2%Q; Run 2%Q] mx)) = false.
Proof.
  assert (H1 : pc (run nextprime_ref (pass 0 1)
                     (loop_entry args0 no_settings 0%Q)) = L_time1)
    by (vm_compute; reflexivity).
  assert (H2 : count_alarms (pass 0 1) = 0) by reflexivity.
  assert (H3 : (2 < 8)%nat) by lia.
  destruct (first_alarm_completes_pass nextprime_ref args0 no_settings 0%Q
              (pass 0 1) 2 1%Q 2%Q 2%Q 2%Q _ eq_refl H1 H2 H3)
    as (Hmx & _ & _ & _ & Hlive & _).
  split; [exact H1|]. split; [exact H2|]. split; [exact H3|].
  split; [rewrite Hmx; reflexivity | exact Hlive].
Defined.

Lemma leave_after_second_alarm (nextprime : Z -> Z) (now1 now2 : Q)
    (w : worker) :
  mpz_live w = true ->
  let wj := set_jumped true (alarm_vars w) in
  let mf := run nextprime [Run now1; Run now2] (Machine L_finish wj) in
  jumped wj = true /\
  (start wj, value wj, factorial wj) = (start w, value w, factorial w) /\
  pc mf = L_return /\
  jumped (vars mf) = true /\
  mpz_live (vars mf) = true /\
  out (vars mf) =
    out w ++ [Summary (stress_bogo_get w) (digits w);
              Metric (rate_of (stress_bogo_get w) (duration w))].
Proof.
  intros Hl. cbv zeta. cbn [run fold_left step exec pc vars].
  assert (Hf : finish (set_jumped true (alarm_vars w)) =
               set_jumped true (alarm_vars w)) by reflexivity.
  rewrite Hf.
  split; [reflexivity|]. split; [reflexivity|]. split; [reflexivity|].
  split; [reflexivity|]. split; [rewrite <- Hl; reflexivity|reflexivity].
Qed.

(** C1: when the second signal arrives while the worker is inside the
    call of [mpz_nextprime], control passes at once to [finish] with
    [jumped] true: the search result is abandoned, the release of the
    arbitrary-precision variables is skipped, and the summary and the rate
    are still handed over, computed from the variables as they were. *)
Theorem second_alarm_forces_report (nextprime : Z -> Z) (a : stress_args_t)
    (s : settings) (t0 : Q) (evs : list event) (now1 now2 : Q)
    (m : machine) :
  m = run nextprime evs (loop_entry a s t0) ->
  pc m = L_nextprime -> count_alarms evs = 1 ->
  let w := vars m in
  let mj := step nextprime SIGALRM m in
  let mf := run nextprime [Run now1; Run now2] mj in
  pc mj = L_finish /\
  (jumped (vars mj) = true /\
   (start (vars mj), value (vars mj), factorial (vars mj)) =
     (start w, value w, factorial w) /\
   pc mf = L_return /\
   jumped (vars mf) = true /\
   mpz_live (vars mf) = true /\
   out (vars mf) =
     out w ++ [Summary (stress_bogo_get w) (digits w);
               Metric (rate_of (stress_bogo_get w) (duration w))]) /\
  stress_prime nextprime a s t0 true (evs ++ [SIGALRM; Run now1; Run now2]) =
    Some (EXIT_SUCCESS,
          out w ++ [Summary (stress_bogo_get w) (digits w);
                    Metric (rate_of (stress_bogo_get w) (duration w))]).
Proof.
  intros Hm Hpc Ha.
  assert (Hc : count (vars m) = 1).
  { rewrite Hm. rewrite run_count by (rewrite <- Hm, Hpc; discriminate).
    rewrite Ha. reflexivity. }
  assert (Hl : mpz_live (vars m) = true).
  { destruct (run_in_loop nextprime evs (loop_entry a s t0)) as [_ H].
    - rewrite <- Hm, Hpc. reflexivity.
    - rewrite Hm, H. reflexivity. }
  unfold stress_prime. rewrite run_app, <- Hm.
rewrite (run_cons nextprime SIGALRM [Run now1; Run now2]). clear Hm.
  destruct m as [l w]. cbn [pc vars] in Hpc, Hc, Hl. subst l.
  cbv zeta. cbn [vars step pc label_eqb].
  rewrite (handler_jump (Machine L_nextprime w) Hc). cbn [pc vars].
  destruct (leave_after_second_alarm nextprime now1 now2 w Hl)
    as (H1 & H2 & H3 & H4 & H5 & H6).
  split; [reflexivity|]. split.
  - split; [exact H1|]. split; [exact H2|]. split; [exact H3|].
    split; [exact H4|]. split; [exact H5|exact H6].
  - rewrite H3, H6. reflexivity.
Qed.

Lemma second_alarm_forces_report_witness :
  pc (run nextprime_ref [Run 0%Q; SIGALRM]
        (loop_entry args0 no_settings 0%Q)) = L_nextprime /\
  count_alarms [Run 0%Q; SIGALRM] = 1 /\
  stress_prime nextprime_ref args0 no_settings 0%Q true
    ([Run 0%Q; SIGALRM] ++ [SIGALRM; Run 5%Q; Run 5%Q]) =
  Some (EXIT_SUCCESS, [Summary 0 1; Metric 0%Q]).
Proof.
  assert (H1 : pc (run nextprime_ref [Run 0%Q; SIGALRM]
                     (loop_entry args0 no_settings 0%Q)) = L_nextprime)
    by (vm_compute; reflexivity).
  assert (H2 : count_alarms [Run 0%Q; SIGALRM] = 1) by reflexivity.
  destruct (second_alarm_forces_report nextprime_ref args0 no_settings 0%Q
              [Run 0%Q; SIGALRM] 5%Q 5%Q _ eq_refl H1 H2)
    as (_ & _ & Hsp).
  split; [exact H1|]. split; [exact H2|].
  rewrite Hsp. vm_compute. reflexivity.
Defined.

(** ** The reference oracle *)

Lemma no_divisor_from_true (fuel : nat) (d p : Z) :
  0 < d ->
  no_divisor_from fuel d p = true ->
  forall x, d <= x < d + Z.of_nat fuel -> ~ (x | p).
Proof.
  revert d. induction fuel as [|fuel IH]; intros d Hd H x Hx.
  - lia.
  - cbn [no_divisor_from] in H. apply andb_true_iff in H as [H1 H2].
    destruct (Z.eq_dec x d) as [->|Hne].
    + intros Hdiv. apply Z.mod_divide in Hdiv; [|lia].
      rewrite Hdiv in H1. discriminate H1.
    + apply (IH (d + 1)); [lia|exact H2|lia].
Qed.

Lemma no_divisor_from_false (fuel : nat) (d p : Z) :
  0 < d ->
  no_divisor_from fuel d p = false ->
  exists x, d <= x < d + Z.of_nat fuel /\ (x | p).
Proof.
  revert d. induction fuel as [|fuel IH]; intros d Hd H.
  - discriminate H.
  - cbn [no_divisor_from] in H. apply andb_false_iff in H as [H|H].
    + exists d. split; [lia|].
      apply Z.mod_divide; [lia|].
      destruct (Z.eqb_spec (p mod d) 0); [assumption|discriminate H].
    + destruct (IH (d + 1) ltac:(lia) H) as (x & Hx & Hdiv).
      exists x. split; [lia|exact Hdiv].
Qed.

Lemma is_prime_b_true (p : Z) : is_prime_b p = true -> Z.prime p.
Proof.
  unfold is_prime_b. intros H. apply andb_true_iff in H as [H1 H2].
  apply Z.ltb_lt in H1. split; [exact H1|].
  intros n Hn. apply (no_divisor_from_true _ 2 p ltac:(lia) H2). lia.
Qed.

Lemma is_prime_b_false (p : Z) :
  1 < p -> is_prime_b p = false -> exists d, 1 < d < p /\ (d | p).
Proof.
  unfold is_prime_b. intros Hp H. apply andb_false_iff in H as [H|H].
  - apply Z.ltb_ge in H. lia.
  - destruct (no_divisor_from_false _ 2 p ltac:(lia) H) as (x & Hx & Hdiv).
    exists x. split; [lia|exact Hdiv].
Qed.

Lemma prime_is_prime_b (p : Z) : Z.prime p -> is_prime_b p = true.
Proof.
  intros [Hp Hnd]. destruct (is_prime_b p) eqn:E; [reflexivity|].
  destruct (is_prime_b_false p Hp E) as (d & Hd & Hdiv).
  exfalso. exact (Hnd d Hd Hdiv).
Qed.

(** Every integer from 2 on has a prime divisor. *)
Lemma prime_divisor_exists (n : Z) :
  1 < n -> exists p, Z.prime p /\ (p | n).
Proof.
  assert (H : forall (fuel : nat) m, 1 < m -> m < Z.of_nat fuel ->
              exists p, Z.prime p /\ (p | m)).
  { induction fuel as [|fuel IH]; intros m Hm Hlt; [lia|].
    destruct (is_prime_b m) eqn:E.
    - exists m. split; [apply is_prime_b_true; exact E|apply Z.divide_refl].
    - destruct (is_prime_b_false m Hm E) as (d & Hd & Hdiv).
      destruct (IH d ltac:(lia) ltac:(lia)) as (p & Hp & Hpd).
      exists p. split; [exact Hp|]. eapply Z.divide_trans; eassumption. }
  intros Hn. apply (H (Z.to_nat (n + 1)) n Hn). lia.
Qed.

Lemma zfact_pos (n : nat) : 0 < zfact n.
Proof. induction n as [|n IH]; cbn [zfact]; lia. Qed.

Lemma zfact_divide (n : nat) (d : Z) :
  1 <= d <= Z.of_nat n -> (d | zfact n).
Proof.
  induction n as [|n IH]; intros Hd; [lia|].
  cbn [zfact]. destruct (Z.eq_dec d (Z.of_nat (S n))) as [->|Hne].
  - apply Z.divide_factor_l.
  - apply Z.divide_mul_r. apply IH. lia.
Qed.

(** Euclid: there is a prime above [n], and no further than [n! + 1]. *)
Lemma prime_above (n : nat) :
  exists p, Z.prime p /\ Z.of_nat n < p <= zfact n + 1.
Proof.
  pose proof (zfact_pos n) as Hpos.
  destruct (prime_divisor_exists (zfact n + 1) ltac:(lia)) as (p & Hp & Hdiv).
  exists p. split; [exact Hp|].
  pose proof (Z.prime_ge_2 p Hp) as Hp2.
  split.
  - destruct (Z_lt_le_dec (Z.of_nat n) p) as [Hlt|Hle]; [exact Hlt|].
    exfalso.
    assert (Hd : (p | zfact n)) by (apply zfact_divide; lia).
    assert (H1 : (p | 1)).
    { replace 1 with (zfact n + 1 - zfact n) by lia.
      apply Z.divide_sub_r; assumption. }
    apply Z.divide_1_r_nonneg in H1; lia.
  - apply Z.divide_pos_le; [lia|exact Hdiv].
Qed.

Lemma scan_spec (fuel : positive) (k : Z) :
  match scan fuel k with
  | inl p => k <= p < k + Z.pos fuel /\ Z.prime p /\
             forall q, k <= q < p -> ~ Z.prime q
  | inr k' => k' = k + Z.pos fuel /\
              forall q, k <= q < k + Z.pos fuel -> ~ Z.prime q
  end.
Proof.
  assert (One : forall k,
             if is_prime_b k then Z.prime k
             else forall q, k <= q < k + 1 -> ~ Z.prime q).
  { intros j. destruct (is_prime_b j) eqn:E.
    - apply is_prime_b_true. exact E.
    - intros q Hq Hp. assert (q = j) by lia. subst q.
      apply prime_is_prime_b in Hp. congruence. }
  revert k. induction fuel as [f IH|f IH|]; intros k; cbn [scan];
    [ rewrite (Pos2Z.inj_xI f) | rewrite (Pos2Z.inj_xO f) | ].
  - pose proof (IH k) as H1. destruct (scan f k) as [p|k1].
    + destruct H1 as (Hr & Hp & Hmin).
      split; [lia|]. split; [exact Hp|exact Hmin].
    + destruct H1 as (-> & Hno1). pose proof (IH (k + Z.pos f)) as H2.
      destruct (scan f (k + Z.pos f)) as [p|k2].
      * destruct H2 as (Hr & Hp & Hmin). split; [lia|]. split; [exact Hp|].
        intros q Hq. destruct (Z_lt_le_dec q (k + Z.pos f)).
        -- apply Hno1. lia.
        -- apply Hmin. lia.
      * destruct H2 as (-> & Hno2). pose proof (One (k + Z.pos f + Z.pos f)) as H3.
        destruct (is_prime_b (k + Z.pos f + Z.pos f)).
        -- split; [lia|]. split; [exact H3|].
           intros q Hq. destruct (Z_lt_le_dec q (k + Z.pos f)).
           ++ apply Hno1. lia.
           ++ apply Hno2. lia.
        -- split; [lia|].
           intros q Hq. destruct (Z_lt_le_dec q (k + Z.pos f)).
           ++ apply Hno1. lia.
           ++ destruct (Z_lt_le_dec q (k + Z.pos f + Z.pos f)).
              ** apply Hno2. lia.
              ** apply H3. lia.
  - pose proof (IH k) as H1. destruct (scan f k) as [p|k1].
    + destruct H1 as (Hr & Hp & Hmin).
      split; [lia|]. split; [exact Hp|exact Hmin].
    + destruct H1 as (-> & Hno1). pose proof (IH (k + Z.pos f)) as H2.
      destruct (scan f (k + Z.pos f)) as [p|k2].
      * destruct H2 as (Hr & Hp & Hmin). split; [lia|]. split; [exact Hp|].
        intros q Hq. destruct (Z_lt_le_dec q (k + Z.pos f)).
        -- apply Hno1. lia.
        -- apply Hmin. lia.
      * destruct H2 as (-> & Hno2). split; [lia|].
        intros q Hq. destruct (Z_lt_le_dec q (k + Z.pos f)).
        -- apply Hno1. lia.
        -- apply Hno2. lia.
  - pose proof (One k) as H. destruct (is_prime_b k).
    + split; [lia|]. split; [exact H|]. intros q Hq. lia.
    + split; [lia|exact H].
Qed.

(** The reference oracle meets the contract of the primality oracle. *)
Lemma nextprime_ref_spec (n : Z) : next_prime_after n (nextprime_ref n).
Proof.
  unfold nextprime_ref, next_prime_after.
  set (k := Z.max 2 (n + 1)).
  set (N := Z.to_nat (k - 1)).
  pose proof (scan_spec (Z.to_pos (zfact N)) k) as Hs.
  pose proof (zfact_pos N) as Hpos.
  rewrite Z2Pos.id in Hs by exact Hpos.
  destruct (scan (Z.to_pos (zfact N)) k) as [p|k'].
  - destruct Hs as (Hr & Hp & Hmin). split; [exact Hp|]. split; [lia|].
    intros q Hq Hnq. destruct (Z_lt_le_dec q p) as [Hlt|Hle]; [|exact Hle].
    exfalso. pose proof (Z.prime_ge_2 q Hq). apply (Hmin q); [lia|exact Hq].
  - exfalso. destruct Hs as (_ & Hno).
    destruct (prime_above N) as (p & Hp & Hr).
    apply (Hno p); [|exact Hp]. subst N. lia.
Qed.

(** ** Candidate sequence *)

Lemma growth_increases (method st v f : Z) :
  1 <= st -> 2 <= f -> st < v ->
  st < fst (growth method st v f) /\
  2 <= fst (growth method st v f) /\
  2 <= snd (growth method st v f).
Proof.
  intros Hs Hf Hv. unfold growth. break_ifs; cbn [fst snd]; nia.
Qed.

(** Every pass keeps [start] at one or more and [factorial] at two or
    more, given an oracle that answers above its argument. *)
Lemma iterations_start_factorial (nextprime : Z -> Z) (ts : list (Q * Q))
    (w : worker) :
  (forall n, n < nextprime n) ->
  1 <= start w -> 2 <= factorial w ->
  1 <= start (iterations nextprime ts w) /\
  2 <= factorial (iterations nextprime ts w).
Proof.
  intros Hnp. revert w. induction ts as [|t ts IH]; intros w Hs Hf.
  - rewrite iterations_nil. split; assumption.
  - rewrite iterations_cons.
    destruct (loop_body_growth nextprime (fst t) (snd t) w) as [Hg1 Hg2].
    destruct (growth_increases (prime_method w) (start w)
                (nextprime (start w)) (factorial w) Hs Hf (Hnp (start w)))
      as (H1 & H2 & H3).
    rewrite <- Hg1 in H1, H2. rewrite <- Hg2 in H3.
    apply IH; lia.
Qed.

(** C6: from the loop entry ([start = 1], [factorial = 2]) and with an
    oracle that returns the smallest prime strictly greater than its
    argument, each pass produces a candidate that is strictly greater than
    the one before and at least 2; this holds for the four growth methods
    (and for any other method code, which runs the factorial arm). *)
Theorem candidates_strictly_increase (nextprime : Z -> Z)
    (a : stress_args_t) (s : settings) (now : Q) (ts : list (Q * Q))
    (t : Q * Q) :
  (forall n, next_prime_after n (nextprime n)) ->
  start (iterations nextprime ts (worker_init a s now)) <
  start (loop_body nextprime (fst t) (snd t)
           (iterations nextprime ts (worker_init a s now))) /\
  2 <= start (loop_body nextprime (fst t) (snd t)
                (iterations nextprime ts (worker_init a s now))).
Proof.
  intros Hnp.
  assert (Hgt : forall n, n < nextprime n) by (intros n; apply (Hnp n)).
  assert (H1 : 1 <= start (worker_init a s now)) by (cbn [start worker_init]; lia).
  assert (H2 : 2 <= factorial (worker_init a s now))
    by (cbn [factorial worker_init]; lia).
  destruct (iterations_start_factorial nextprime ts (worker_init a s now)
              Hgt H1 H2) as [Hs Hf].
  generalize dependent (iterations nextprime ts (worker_init a s now)).
  intros w Hs Hf.
  destruct (loop_body_growth nextprime (fst t) (snd t) w) as [Hg _].
  destruct (growth_increases (prime_method w) (start w)
              (nextprime (start w)) (factorial w) Hs Hf (Hgt (start w)))
    as (G1 & G2 & _).
  rewrite <- Hg in G1, G2. split; assumption.
Qed.

Lemma candidates_strictly_increase_witness :
  (forall n, next_prime_after n (nextprime_ref n)) /\
  start (iterations nextprime_ref three_passes
           (worker_init args0 no_settings 0%Q)) <
  start (loop_body nextprime_ref (fst (3%Q, 4%Q)) (snd (3%Q, 4%Q))
           (iterations nextprime_ref three_passes
              (worker_init args0 no_settings 0%Q))).
Proof.
  split; [exact nextprime_ref_spec|].
  exact (proj1 (candidates_strictly_increase nextprime_ref args0 no_settings
                  0%Q three_passes (3%Q, 4%Q) nextprime_ref_spec)).
Defined.

(** ** Digit length *)

Lemma sizeinbase_table_checked :
  sizeinbase_table SIZEINBASE_CHECKED_BITS 0 1 1 10 = true.
Proof. vm_compute. reflexivity. Qed.

Lemma sizeinbase_table_spec (n : nat) (nbits pow2 r pow10 : Z) :
  0 <= nbits -> pow2 = 2 ^ nbits -> 1 <= r -> pow10 = 10 ^ r ->
  r = Gmp.DIGITS_IN_BASE_FROM_BITS nbits ->
  sizeinbase_table n nbits pow2 r pow10 = true ->
  forall b, nbits < b <= nbits + Z.of_nat n ->
    1 <= Gmp.DIGITS_IN_BASE_FROM_BITS b /\
    2 ^ b <= 10 ^ Gmp.DIGITS_IN_BASE_FROM_BITS b /\
    10 ^ Gmp.DIGITS_IN_BASE_FROM_BITS b <= 100 * 2 ^ (b - 1).
Proof.
  revert nbits pow2 r pow10.
  induction n as [|n IH]; intros nbits pow2 r pow10 Hnb Hp2 Hr Hp10 Hrd H b Hb;
    [lia|].
  cbn [sizeinbase_table] in H. cbv zeta in H.
  apply andb_true_iff in H as [H H4]. apply andb_true_iff in H as [H H3].
  apply andb_true_iff in H as [H1 H2].
  apply Z.leb_le in H2, H3.
  set (r' := Gmp.DIGITS_IN_BASE_FROM_BITS (nbits + 1)) in *.
  assert (Hp2' : 2 * pow2 = 2 ^ (nbits + 1)).
  { rewrite Z.pow_add_r, Hp2 by lia. change (2 ^ 1) with 2. lia. }
  assert (Hr' : 1 <= r' /\
                (if r' =? r then pow10 else 10 * pow10) = 10 ^ r').
  { apply orb_true_iff in H1 as [E|E]; apply Z.eqb_eq in E.
    - rewrite E, Z.eqb_refl. split; [lia|exact Hp10].
    - destruct (Z.eqb_spec r' r) as [E'|_]; [lia|].
      split; [lia|]. rewrite E, Z.pow_add_r, Hp10 by lia.
      change (10 ^ 1) with 10. lia. }
  destruct Hr' as [Hr1 Hp10'].
  destruct (Z.eq_dec b (nbits + 1)) as [->|Hne].
  - fold r'. rewrite <- Hp10', <- Hp2'.
    replace (nbits + 1 - 1) with nbits by lia. rewrite <- Hp2.
    split; [exact Hr1|]. split; [exact H2|exact H3].
  - apply (IH (nbits + 1) (2 * pow2) r'
              (if r' =? r then pow10 else 10 * pow10));
      try assumption; try reflexivity; lia.
Qed.

Lemma decimal_digits_aux_spec (fuel : nat) (n : Z) :
  0 < n -> Z.log2 n <= Z.of_nat fuel ->
  1 <= decimal_digits_aux fuel n /\
  10 ^ (decimal_digits_aux fuel n - 1) <= n < 10 ^ decimal_digits_aux fuel n.
Proof.
  revert n. induction fuel as [|fuel IH]; intros n Hn Hl.
  - cbn [decimal_digits_aux]. 
    assert (H : n < 2 ^ 1) by (apply Z.log2_lt_pow2; lia).
    change (2 ^ 1) with 2 in H. change (10 ^ (1 - 1)) with 1.
    change (10 ^ 1) with 10. lia.
  - cbn [decimal_digits_aux]. destruct (Z.ltb_spec n 10) as [Hlt|Hge].
    + change (10 ^ (1 - 1)) with 1. change (10 ^ 1) with 10. lia.
    + assert (Hq : 0 < n / 10) by (apply Z.div_str_pos; lia).
      assert (Hl' : Z.log2 (n / 10) <= Z.of_nat fuel).
      { assert (H2 : 2 * (n / 10) <= n).
        { pose proof (Z.mul_div_le n 10 ltac:(lia)). lia. }
        apply Z.log2_le_mono in H2. rewrite Z.log2_double in H2 by exact Hq.
        lia. }
      destruct (IH (n / 10) Hq Hl') as (Hd & Hlo & Hhi).
      set (d := decimal_digits_aux fuel (n / 10)) in *.
      split; [lia|].
      replace (1 + d - 1) with (Z.succ (d - 1)) by lia.
      replace (1 + d) with (Z.succ d) by lia.
      rewrite !Z.pow_succ_r by lia.
      pose proof (Z.mul_div_le n 10 ltac:(lia)).
      pose proof (Z.mul_succ_div_gt n 10 ltac:(lia)).
      lia.
Qed.

Lemma decimal_digits_spec (n : Z) :
  0 < n ->
  1 <= decimal_digits n /\
  10 ^ (decimal_digits n - 1) <= n < 10 ^ decimal_digits n.
Proof.
  intros Hn. apply decimal_digits_aux_spec; [exact Hn|].
  rewrite Z2Nat.id by apply Z.log2_nonneg. lia.
Qed.

Lemma sizeinbase_near_exact (p : Z) :
  0 < p < 2 ^ Z.of_nat SIZEINBASE_CHECKED_BITS ->
  decimal_digits p <= Gmp.mpz_sizeinbase10 p <= decimal_digits p + 1.
Proof.
  intros [Hp Hlt].
  destruct (decimal_digits_spec p Hp) as (Hd & Hlo & Hhi).
  unfold Gmp.mpz_sizeinbase10.
  destruct (Z.eqb_spec p 0) as [|_]; [lia|].
  rewrite Z.abs_eq by lia.
  destruct (Z.log2_spec p Hp) as [Hb1 Hb2].
  pose proof (Z.log2_nonneg p) as Hl0.
  assert (Hl : Z.log2 p < Z.of_nat SIZEINBASE_CHECKED_BITS)
    by (apply Z.log2_lt_pow2; [lia|exact Hlt]).
  destruct (sizeinbase_table_spec SIZEINBASE_CHECKED_BITS 0 1 1 10
              ltac:(lia) eq_refl ltac:(lia) eq_refl eq_refl
              sizeinbase_table_checked (Z.log2 p + 1) ltac:(lia))
    as (Hr & H1 & H2).
  set (r := Gmp.DIGITS_IN_BASE_FROM_BITS (Z.log2 p + 1)) in *.
  replace (Z.log2 p + 1 - 1) with (Z.log2 p) in H2 by lia.
  replace (Z.succ (Z.log2 p)) with (Z.log2 p + 1) in Hb2 by lia.
  split.
  - assert (H : 10 ^ (decimal_digits p - 1) < 10 ^ r) by lia.
    apply Z.pow_lt_mono_r_iff in H; lia.
  - assert (H : 10 ^ r < 10 ^ (decimal_digits p + 2)).
    { rewrite Z.pow_add_r by lia. change (10 ^ 2) with 100. lia. }
    apply Z.pow_lt_mono_r_iff in H; lia.
Qed.

(** C5, as stated, fails: after sixteen passes of the increment method the
    seventeenth finds the prime 97, which has two decimal digits, and the
    Digit Length recorded for it is 3. *)
Lemma digit_length_overshoots :
  value (loop_body nextprime_ref 0 1 after_sixteen_passes) = 97 /\
  digits (loop_body nextprime_ref 0 1 after_sixteen_passes) = 3 /\
  decimal_digits 97 = 2 /\
  digits (loop_body nextprime_ref 0 1 after_sixteen_passes) <>
  decimal_digits (value (loop_body nextprime_ref 0 1 after_sixteen_passes)).
Proof.
  assert (Hs : nextprime_ref (start after_sixteen_passes) = 97)
    by (vm_compute; reflexivity).
  rewrite loop_body_value, loop_body_digits, Hs.
  split; [reflexivity|]. split; [vm_compute; reflexivity|].
  split; [vm_compute; reflexivity|].
  vm_compute. discriminate.
Qed.

(** C5, amended: the Digit Length recorded after the search step is what
    [mpz_sizeinbase (value, 10)] returns for the prime just found, which
    libgmp derives from the bit length of the prime: it is never less than
    the exact number of decimal digits and at most one more (checked for
    primes below [2^4096]); it is 6 for 104729, which is exact, and 3 for
    97, which has two digits. *)
Theorem digit_length_is_sizeinbase (nextprime : Z -> Z) (now1 now2 : Q)
    (w : worker) :
  value (loop_body nextprime now1 now2 w) = nextprime (start w) /\
  digits (loop_body nextprime now1 now2 w) =
    Gmp.mpz_sizeinbase10 (nextprime (start w)) /\
  (0 < nextprime (start w) < 2 ^ Z.of_nat SIZEINBASE_CHECKED_BITS ->
   decimal_digits (nextprime (start w)) <=
     digits (loop_body nextprime now1 now2 w) <=
     decimal_digits (nextprime (start w)) + 1) /\
  (Gmp.mpz_sizeinbase10 104729 = 6 /\ decimal_digits 104729 = 6) /\
  (Gmp.mpz_sizeinbase10 97 = 3 /\ decimal_digits 97 = 2).
Proof.
  split; [apply loop_body_value|].
  split; [apply loop_body_digits|].
  split.
  - intros Hp. rewrite loop_body_digits. apply sizeinbase_near_exact.
    exact Hp.
  - split; split; vm_compute; reflexivity.
Qed.

Lemma digit_length_is_sizeinbase_witness :
  0 < nextprime_ref (start after_sixteen_passes)
    < 2 ^ Z.of_nat SIZEINBASE_CHECKED_BITS /\
  decimal_digits (nextprime_ref (start after_sixteen_passes)) <=
    digits (loop_body nextprime_ref 0 1 after_sixteen_passes) <=
    decimal_digits (nextprime_ref (start after_sixteen_passes)) + 1.
Proof.
  assert (Hs : nextprime_ref (start after_sixteen_passes) = 97)
    by (vm_compute; reflexivity).
  assert (Hp : 0 < nextprime_ref (start after_sixteen_passes)
                 < 2 ^ Z.of_nat SIZEINBASE_CHECKED_BITS).
  { rewrite Hs. split; [reflexivity|]. vm_compute. reflexivity. }
  split; [exact Hp|].
  destruct (digit_length_is_sizeinbase nextprime_ref 0%Q 1%Q
              after_sixteen_passes) as (_ & _ & H & _).
  exact (H Hp).
Defined.

(** ** Option handling *)

Lemma lookup_method_some (methods : list Table.stress_prime_method_t)
    (name : String.string) (e : Table.stress_prime_method_t) :
  lookup_method methods name = Some e ->
  In e methods /\ Table.name e = name.
Proof.
  induction methods as [|e' methods IH]; cbn [lookup_method];
    [discriminate|].
  destruct (String.eqb_spec (Table.name e') name) as [E|E].
  - intros H. injection H as <-. split; [left; reflexivity|exact E].
  - intros H. destruct (IH H) as [Hin Hn]. split; [right; exact Hin|exact Hn].
Qed.

Lemma lookup_method_none (methods : list Table.stress_prime_method_t)
    (name : String.string) :
  lookup_method methods name = None <->
  ~ In name (map Table.name methods).
Proof.
  induction methods as [|e' methods IH]; cbn [lookup_method map In].
  - split; [intros _ H; exact H|reflexivity].
  - destruct (String.eqb_spec (Table.name e') name) as [E|E].
    + split; [discriminate|]. intros H. exfalso. apply H. left. exact E.
    + rewrite IH. split; [intros H [G|G]; [exact (E G)|exact (H G)]|].
      intros H G. apply H. right. exact G.
Qed.

(** X1: a name of the table [stress_prime_methods] is accepted:
    [stress_set_prime_method] returns 0, writes nothing to [stderr] and
    stores the code of that name; the code is one of the four the switch
    knows, and the worker reads it back as its method. *)
Theorem set_prime_method_accepts (name : String.string) (s : settings)
    (stderr : list String.string) :
  In name (map Table.name stress_prime_methods) ->
  exists e,
    In e stress_prime_methods /\ Table.name e = name /\
    stress_set_prime_method name s stderr =
      (0, stress_set_setting_prime_method (Table.prime_method e) s, stderr) /\
    STRESS_PRIME_METHOD_FACTORIAL <= Table.prime_method e
      <= STRESS_PRIME_METHOD_PWR10 /\
    forall a now,
      prime_method
        (worker_init a
           (stress_set_setting_prime_method (Table.prime_method e) s) now) =
      Table.prime_method e.
Proof.
  intros Hin. unfold stress_set_prime_method.
  destruct (lookup_method stress_prime_methods name) as [e|] eqn:E.
  - destruct (lookup_method_some _ _ _ E) as [He Hn].
    exists e. split; [exact He|]. split; [exact Hn|].
    split; [reflexivity|]. split; [|reflexivity].
    cbn [stress_prime_methods In] in He.
    destruct He as [<-|[<-|[<-|[<-|[]]]]]; cbv; split; discriminate.
  - apply lookup_method_none in E. contradiction.
Qed.

(** X2: any other name is refused: [stress_set_prime_method] returns -1,
    leaves the settings alone and writes to [stderr] the line
    [prime-method must be one of: factorial inc pwr2 pwr10], the names in
    the order of the table. *)
Theorem set_prime_method_rejects (name : String.string) (s : settings)
    (stderr : list String.string) :
  ~ In name (map Table.name stress_prime_methods) ->
  stress_set_prime_method name s stderr =
    (-1, s, stderr ++ must_be_one_of stress_prime_methods) /\
  String.concat String.EmptyString (must_be_one_of stress_prime_methods) =
    String.append "prime-method must be one of: factorial inc pwr2 pwr10"
      newline.
Proof.
  intros Hn. apply lookup_method_none in Hn.
  unfold stress_set_prime_method. rewrite Hn. split; reflexivity.
Qed.

(** X3: the return value of [stress_set_prime_method] tells the two cases
    apart: it is 0 exactly for the names of the table and -1 exactly for
    the others. *)
Theorem set_prime_method_status (name : String.string) (s : settings)
    (stderr : list String.string) :
  (fst (fst (stress_set_prime_method name s stderr)) = 0 <->
   In name (map Table.name stress_prime_methods)) /\
  (fst (fst (stress_set_prime_method name s stderr)) = -1 <->
   ~ In name (map Table.name stress_prime_methods)).
Proof.
  unfold stress_set_prime_method.
  destruct (lookup_method stress_prime_methods name) as [e|] eqn:E;
    cbn [fst].
  - destruct (lookup_method_some _ _ _ E) as [He Hn].
    assert (Hin : In name (map Table.name stress_prime_methods))
      by (rewrite <- Hn; apply in_map; exact He).
    split; split; try discriminate; try (intros _; assumption || reflexivity).
    intros H. contradiction.
  - apply lookup_method_none in E.
    split; split; try discriminate; try (intros _; assumption || reflexivity).
    intros H. contradiction.
Qed.

Lemma set_prime_method_accepts_witness :
  In "pwr2"%string (map Table.name stress_prime_methods) /\
  exists e,
    In e stress_prime_methods /\ Table.name e = "pwr2"%string /\
    stress_set_prime_method "pwr2"%string no_settings [] =
      (0, stress_set_setting_prime_method (Table.prime_method e) no_settings,
       []).
Proof.
  assert (H : In "pwr2"%string (map Table.name stress_prime_methods))
    by (cbn; tauto).
  split; [exact H|].
  destruct (set_prime_method_accepts "pwr2"%string no_settings [] H)
    as (e & H1 & H2 & H3 & _).
  exists e. split; [exact H1|]. split; [exact H2|exact H3].
Defined.

Lemma set_prime_method_rejects_witness :
  ~ In "sieve"%string (map Table.name stress_prime_methods) /\
  stress_set_prime_method "sieve"%string (with_method 2) [] =
    (-1, with_method 2, [] ++ must_be_one_of stress_prime_methods).
Proof.
  assert (H : ~ In "sieve"%string (map Table.name stress_prime_methods)).
  { cbn. intros [H|[H|[H|[H|[]]]]]; discriminate H. }
  split; [exact H|].
  exact (proj1 (set_prime_method_rejects "sieve"%string (with_method 2) [] H)).
Defined.

(** ** What never changes, and what changes one way only *)

Section Invariants.

Variable nextprime : Z -> Z.

(** Nothing the worker or the handler does touches the arguments or the
    settings read at the start. *)
Lemma step_frozen (e : event) (m : machine) :
  prime_method (vars (step nextprime e m)) = prime_method (vars m) /\
  prime_progress (vars (step nextprime e m)) = prime_progress (vars m) /\
  instance (vars (step nextprime e m)) = instance (vars m) /\
  max_ops (vars (step nextprime e m)) = max_ops (vars m).
Proof.
  destruct e as [now|]; unfold step.
  - unfold exec. destruct (pc m); cbn [vars];
      unfold switch_prime_method, progress_check, finish;
      break_ifs; repeat split; reflexivity.
  - destruct (label_eqb (pc m) L_return); [repeat split; reflexivity|].
    rewrite handler_vars. break_ifs; repeat split; reflexivity.
Qed.

(** X4: nothing the worker or the handler does changes the method, the
    progress flag, the instance or the operation budget read at the
    start. *)
Theorem configuration_is_frozen (evs : list event) (m : machine) :
  prime_method (vars (run nextprime evs m)) = prime_method (vars m) /\
  prime_progress (vars (run nextprime evs m)) = prime_progress (vars m) /\
  instance (vars (run nextprime evs m)) = instance (vars m) /\
  max_ops (vars (run nextprime evs m)) = max_ops (vars m).
Proof.
  revert m. induction evs as [|e evs IH]; intros m;
    [repeat split; reflexivity|].
  rewrite run_cons. destruct (IH (step nextprime e m)) as (H1 & H2 & H3 & H4).
  destruct (step_frozen e m) as (G1 & G2 & G3 & G4).
  rewrite H1, H2, H3, H4, G1, G2, G3, G4. repeat split; reflexivity.
Qed.

(** The flags move one way only. *)
Lemma step_flags (e : event) (m : machine) :
  (continue_flag (vars m) = false ->
   continue_flag (vars (step nextprime e m)) = false) /\
  (jumped (vars m) = true -> jumped (vars (step nextprime e m)) = true) /\
  count (vars m) <= count (vars (step nextprime e m)).
Proof.
  destruct e as [now|]; unfold step.
  - destruct (exec_signal_state nextprime now m) as (Hc & Hj & Hf).
    rewrite Hc, Hj, Hf. split; [auto|]. split; [auto|lia].
  - destruct (label_eqb (pc m) L_return); [split; [auto|split; [auto|lia]]|].
    rewrite handler_vars.
    destruct (1 <? count (vars m) + 1).
    + split; [intros _; reflexivity|]. split; [intros _; reflexivity|].
      change (count (set_jumped true
                       (set_count (count (vars m) + 1)
                          (set_continue_flag false (vars m)))))
        with (count (vars m) + 1). lia.
    + split; [intros _; reflexivity|]. split; [intros H; exact H|].
      change (count (set_count (count (vars m) + 1)
                       (set_continue_flag false (vars m))))
        with (count (vars m) + 1). lia.
Qed.

(** X5: the signal state moves one way only: a cleared Continue Flag is
    never set again, [jumped] once true stays true, and the handler's count
    never decreases. *)
Theorem flags_are_monotone (evs : list event) (m : machine) :
  (continue_flag (vars m) = false ->
   continue_flag (vars (run nextprime evs m)) = false) /\
  (jumped (vars m) = true -> jumped (vars (run nextprime evs m)) = true) /\
  count (vars m) <= count (vars (run nextprime evs m)).
Proof.
  revert m. induction evs as [|e evs IH]; intros m;
    [cbn [run fold_left]; split; [auto|split; [auto|lia]]|].
  rewrite run_cons. destruct (IH (step nextprime e m)) as (H1 & H2 & H3).
  destruct (step_flags e m) as (G1 & G2 & G3).
  split; [auto|]. split; [auto|lia].
Qed.

End Invariants.

(** ** Signals and the jump *)

Section Signals.

Variable nextprime : Z -> Z.

Lemma step_jump_inv (e : event) (m : machine) :
  jump_inv (vars m) -> jump_inv (vars (step nextprime e m)).
Proof.
  intros [Hc Hj]. destruct e as [now|]; unfold step, jump_inv.
  - destruct (exec_signal_state nextprime now m) as (Hc' & Hj' & _).
    rewrite Hc', Hj'. split; assumption.
  - destruct (label_eqb (pc m) L_return); [split; assumption|].
    rewrite handler_vars.
    destruct (1 <? count (vars m) + 1) eqn:E.
    + change (count (set_jumped true
                       (set_count (count (vars m) + 1)
                          (set_continue_flag false (vars m)))))
        with (count (vars m) + 1).
      change (jumped (set_jumped true
                       (set_count (count (vars m) + 1)
                          (set_continue_flag false (vars m)))))
        with true.
      rewrite E. split; [lia|reflexivity].
    + change (count (set_count (count (vars m) + 1)
                       (set_continue_flag false (vars m))))
        with (count (vars m) + 1).
      change (jumped (set_count (count (vars m) + 1)
                       (set_continue_flag false (vars m))))
        with (jumped (vars m)).
      rewrite E, Hj. split; [lia|]. apply Z.ltb_ge in E. apply Z.ltb_ge. lia.
Qed.

Lemma run_jump_inv (evs : list event) (m : machine) :
  jump_inv (vars m) -> jump_inv (vars (run nextprime evs m)).
Proof.
  revert m. induction evs as [|e evs IH]; intros m H; [exact H|].
  rewrite run_cons. apply IH. apply step_jump_inv. exact H.
Qed.

Lemma step_count_le (e : event) (m : machine) :
  count (vars (step nextprime e m)) <=
  count (vars m) + match e with SIGALRM => 1 | Run _ => 0 end.
Proof.
  destruct e as [now|]; unfold step.
  - destruct (exec_signal_state nextprime now m) as (Hc & _). rewrite Hc. lia.
  - destruct (label_eqb (pc m) L_return); [lia|].
    rewrite handler_vars. break_ifs.
    + change (count (set_jumped true
                       (set_count (count (vars m) + 1)
                          (set_continue_flag false (vars m)))))
        with (count (vars m) + 1). lia.
    + change (count (set_count (count (vars m) + 1)
                       (set_continue_flag false (vars m))))
        with (count (vars m) + 1). lia.
Qed.

Lemma run_count_le (evs : list event) (m : machine) :
  count (vars (run nextprime evs m)) <= count (vars m) + count_alarms evs.
Proof.
  revert m. induction evs as [|e evs IH]; intros m.
  - cbn [run fold_left count_alarms]. lia.
  - rewrite run_cons. pose proof (IH (step nextprime e m)) as H.
    pose proof (step_count_le e m) as H'.
    destruct e; cbn [count_alarms]; lia.
Qed.

(** X6: the jump is the business of the second signal: a worker that
    has jumped has received at least two signals, and a worker that has
    received two signals before returning has jumped. *)
Theorem jumped_iff_two_signals (a : stress_args_t) (s : settings) (t0 : Q)
    (evs : list event) :
  (jumped (vars (run nextprime evs (loop_entry a s t0))) = true ->
   2 <= count_alarms evs) /\
  (pc (run nextprime evs (loop_entry a s t0)) <> L_return ->
   2 <= count_alarms evs ->
   jumped (vars (run nextprime evs (loop_entry a s t0))) = true).
Proof.
  assert (Hinv : jump_inv (vars (run nextprime evs (loop_entry a s t0)))).
  { apply run_jump_inv. split; [cbn; lia|reflexivity]. }
  destruct Hinv as [Hc Hj]. split.
  - intros H. rewrite Hj in H. apply Z.ltb_lt in H.
    pose proof (run_count_le evs (loop_entry a s t0)) as Hle.
    change (count (vars (loop_entry a s t0))) with 0 in Hle. lia.
  - intros Hpc Ha. rewrite Hj. apply Z.ltb_lt.
    rewrite (run_count nextprime evs (loop_entry a s t0) Hpc).
    change (count (vars (loop_entry a s t0))) with 0. lia.
Qed.

Lemma step_released_inv (e : event) (m : machine) :
  released_inv m -> released_inv (step nextprime e m).
Proof.
  unfold released_inv. destruct m as [l w]. cbn [pc vars].
  intros H. destruct e as [now|]; unfold step.
  - unfold exec. cbn [pc vars].
    destruct l; cbn [pc vars]; intros [Hp|Hp]; try discriminate Hp;
      try (exfalso; revert Hp; destruct (stress_continue w); discriminate).
    + unfold finish. destruct (jumped w) eqn:Hj; cbn [negb].
      * intros Hj'. congruence.
      * intros _. reflexivity.
    + intros Hj. change (jumped (report w)) with (jumped w) in Hj.
      change (mpz_live (report w)) with (mpz_live w). apply H; auto.
    + intros Hj. apply H; auto.
  - cbn [pc]. destruct (label_eqb l L_return) eqn:El; cbn [pc vars];
      [exact H|].
    unfold stress_prime_alarm_handler, siglongjmp, stress_continue_set_flag.
    cbn [pc vars].
    match goal with
    | |- context [if ?c then _ else _] => destruct c
    end; cbn [pc vars].
    + intros [Hp|Hp]; discriminate Hp.
    + intros Hp Hj. apply H; [exact Hp|exact Hj].
Qed.

Lemma run_released_inv (evs : list event) (m : machine) :
  released_inv m -> released_inv (run nextprime evs m).
Proof.
  revert m. induction evs as [|e evs IH]; intros m H; [exact H|].
  rewrite run_cons. apply IH. apply step_released_inv. exact H.
Qed.

(** X7: with at most one signal, wherever it arrives, the worker that
    returns has not jumped and has cleared its integers. *)
Theorem at_most_one_signal_exits_cleanly (a : stress_args_t) (s : settings)
    (t0 : Q) (evs : list event) :
  count_alarms evs <= 1 ->
  pc (run nextprime evs (loop_entry a s t0)) = L_return ->
  jumped (vars (run nextprime evs (loop_entry a s t0))) = false /\
  mpz_live (vars (run nextprime evs (loop_entry a s t0))) = false.
Proof.
  intros Ha Hpc.
  assert (Hj : jumped (vars (run nextprime evs (loop_entry a s t0))) = false).
  { destruct (jumped (vars (run nextprime evs (loop_entry a s t0)))) eqn:E;
      [|reflexivity].
    apply (proj1 (jumped_iff_two_signals a s t0 evs)) in E. lia. }
  split; [exact Hj|].
  apply (run_released_inv evs (loop_entry a s t0)).
  - intros [H|H]; discriminate H.
  - right. exact Hpc.
  - exact Hj.
Qed.

End Signals.

(** ** The life cycle of the integers and of the process state *)

Section Lifecycle.

Variable nextprime : Z -> Z.

Lemma step_live_inv (e : event) (m : machine) :
  live_inv m -> live_inv (step nextprime e m).
Proof.
  destruct m as [l w]. unfold live_inv. cbn [pc vars]. intros (Hl & Hf).
  destruct e as [now|]; unfold step.
  - unfold exec. cbn [pc vars].
    destruct l; cbn [pc vars in_loop];
      try (split; [intros _; apply Hl; reflexivity
                  |intros Hp; discriminate Hp]);
      try (split; [intros Hp; discriminate Hp|intros Hp; discriminate Hp]).
    + unfold switch_prime_method, factorial_arm.
      break_ifs; (split; [intros _; apply Hl; reflexivity
                         |intros Hp; discriminate Hp]).
    + unfold progress_check.
      break_ifs; (split; [intros _; apply Hl; reflexivity
                         |intros Hp; discriminate Hp]).
    + destruct (stress_continue w); cbn [in_loop].
      * split; [intros _; apply Hl; reflexivity|intros Hp; discriminate Hp].
      * split; [intros Hp; discriminate Hp|].
        intros _ Hm. rewrite Hl in Hm by reflexivity. discriminate Hm.
  - cbn [pc]. destruct (label_eqb l L_return); cbn [pc vars];
      [split; [exact Hl|exact Hf]|].
    unfold stress_prime_alarm_handler, siglongjmp, stress_continue_set_flag.
    cbn [pc vars].
    destruct (1 <? _); cbn [pc vars in_loop].
    + split; [intros Hp; discriminate Hp|intros _ _; reflexivity].
    + split; [exact Hl|exact Hf].
Qed.

Lemma run_live_inv (evs : list event) (m : machine) :
  live_inv m -> live_inv (run nextprime evs m).
Proof.
  revert m. induction evs as [|e evs IH]; intros m H; [exact H|].
  rewrite run_cons. apply IH. apply step_live_inv. exact H.
Qed.

(** X8: whatever the signals, the loop never works on cleared integers,
    and [finish] never clears integers already cleared: when it finds them
    cleared the worker has jumped, and [finish] changes nothing. *)
Theorem integers_cleared_at_most_once (a : stress_args_t) (s : settings)
    (t0 : Q) (evs : list event) :
  (in_loop (pc (run nextprime evs (loop_entry a s t0))) = true ->
   mpz_live (vars (run nextprime evs (loop_entry a s t0))) = true) /\
  (pc (run nextprime evs (loop_entry a s t0)) = L_finish ->
   mpz_live (vars (run nextprime evs (loop_entry a s t0))) = false ->
   finish (vars (run nextprime evs (loop_entry a s t0))) =
   vars (run nextprime evs (loop_entry a s t0))).
Proof.
  destruct (run_live_inv evs (loop_entry a s t0)) as (Hl & Hf).
  { split; [intros _; reflexivity|intros Hp; discriminate Hp]. }
  split; [exact Hl|].
  intros Hp Hm. unfold finish. rewrite (Hf Hp Hm). reflexivity.
Qed.




End Lifecycle.

(** ** Leaving the loop, and what was written by then *)

Section Exit.

Variable nextprime : Z -> Z.

Lemma exec_statements_left (now : Q) (m : machine) :
  continue_flag (vars m) = false ->
  statements_left (pc (exec nextprime now m)) =
  Nat.pred (statements_left (pc m)).
Proof.
  destruct m as [l w]. cbn [pc vars]. intros Hf. unfold exec. cbn [pc vars].
  destruct l; cbn [pc]; try reflexivity.
  unfold stress_continue. rewrite Hf. reflexivity.
Qed.

Lemma run_statements_left (nows : list Q) (m : machine) :
  continue_flag (vars m) = false ->
  statements_left (pc (run nextprime (map Run nows) m)) =
  (statements_left (pc m) - length nows)%nat.
Proof.
  revert m. induction nows as [|now nows IH]; intros m Hf.
  - cbn [map run fold_left length]. lia.
  - cbn [map length]. rewrite run_cons. cbn [step].
    rewrite IH.
    + rewrite exec_statements_left by exact Hf. lia.
    + destruct (exec_signal_state nextprime now m) as (_ & _ & H).
      rewrite H. exact Hf.
Qed.

(** X9: once the Continue Flag is cleared, ten statements without a
    further signal are enough for the worker to return, wherever it
    stands. *)
Theorem cleared_flag_returns_in_ten (nows : list Q) (m : machine) :
  continue_flag (vars m) = false ->
  (10 <= length nows)%nat ->
  pc (run nextprime (map Run nows) m) = L_return.
Proof.
  intros Hf Hn.
  pose proof (run_statements_left nows m Hf) as H.
  assert (Hb : (statements_left (pc m) <= 10)%nat)
    by (destruct (pc m); cbn; lia).
  destruct (pc (run nextprime (map Run nows) m)); cbn in H; try lia.
  reflexivity.
Qed.

(** Without a signal and without an operation budget the worker stays in
    the loop. *)
Lemma step_stays_in_loop (now : Q) (m : machine) :
  in_loop (pc m) = true -> continue_flag (vars m) = true ->
  max_ops (vars m) = 0 ->
  in_loop (pc (exec nextprime now m)) = true.
Proof.
  destruct m as [l w]. cbn [pc vars]. intros Hl Hf Hm. unfold exec.
  cbn [pc vars].
  destruct l; cbn [pc in_loop]; try reflexivity; try discriminate Hl.
  unfold stress_continue. rewrite Hf, Hm. reflexivity.
Qed.

(** X10: without a signal and without an operation budget the worker
    never leaves the loop. *)
Theorem no_signal_no_budget_never_exits (a : stress_args_t) (s : settings)
    (t0 : Q) (nows : list Q) :
  args_max_ops a = 0 ->
  in_loop (pc (run nextprime (map Run nows) (loop_entry a s t0))) = true.
Proof.
  intros Hb.
  assert (H : forall m, in_loop (pc m) = true ->
                        continue_flag (vars m) = true ->
                        max_ops (vars m) = 0 ->
                        in_loop (pc (run nextprime (map Run nows) m)) = true).
  { induction nows as [|now nows IH]; intros m Hl Hf Hm; [exact Hl|].
    cbn [map]. rewrite run_cons. cbn [step]. apply IH.
    - apply step_stays_in_loop; assumption.
    - destruct (exec_signal_state nextprime now m) as (_ & _ & H).
      rewrite H. exact Hf.
    - destruct (step_frozen nextprime (Run now) m) as (_ & _ & _ & H).
      cbn [step] in H. rewrite H. exact Hm. }
  apply H; [reflexivity|reflexivity|exact Hb].
Qed.




End Exit.

(** ** Ranges of what is reported, and the duration *)

Lemma sizeinbase_pos (x : Z) : 1 <= Gmp.mpz_sizeinbase10 x.
Proof.
  unfold Gmp.mpz_sizeinbase10. destruct (x =? 0); [lia|].
  unfold Gmp.DIGITS_IN_BASE_FROM_BITS, Gmp.umul_ppmm.
  pose proof (Z.log2_nonneg (Z.abs x)) as Hl.
  assert (H : 0 <= Gmp.mp_bases_10_logb2 * (Z.log2 (Z.abs x) + 1) /
                   2 ^ Gmp.GMP_LIMB_BITS).
  { apply Z.div_pos; [|reflexivity].
    apply Z.mul_nonneg_nonneg; [unfold Gmp.mp_bases_10_logb2|]; lia. }
  destruct (_ <? _); lia.
Qed.

Lemma rate_of_nonneg (ops : Z) (dur : Q) :
  0 <= ops -> (0 <= rate_of ops dur)%Q.
Proof.
  intros Hops. unfold rate_of.
  destruct (Qle_bool dur 0) eqn:E; cbn [negb]; [apply Qle_refl|].
  assert (Hd : (0 < dur)%Q).
  { apply Qnot_le_lt. intros H. apply Qle_bool_iff in H. congruence. }
  apply Qmult_le_0_compat.
  - change 0%Q with (inject_Z 0). rewrite <- Zle_Qle. exact Hops.
  - apply Qinv_le_0_compat. apply Qlt_le_weak. exact Hd.
Qed.

Section Ranges.

Variable nextprime : Z -> Z.

Lemma step_counter_digits (e : event) (m : machine) :
  (counter (vars (step nextprime e m)) = counter (vars m) \/
   counter (vars (step nextprime e m)) = uint64 (counter (vars m) + 1)) /\
  (digits (vars (step nextprime e m)) = digits (vars m) \/
   digits (vars (step nextprime e m)) =
     Gmp.mpz_sizeinbase10 (value (vars m))).
Proof.
  destruct e as [now|]; unfold step.
  - unfold exec. destruct (pc m); cbn [vars];
      unfold switch_prime_method, progress_check, finish;
      break_ifs; split; (left; reflexivity) || (right; reflexivity).
  - destruct (label_eqb (pc m) L_return); [split; left; reflexivity|].
    rewrite handler_vars. break_ifs; split; left; reflexivity.
Qed.

Lemma step_range_inv (e : event) (m : machine) :
  range_inv (vars m) -> range_inv (vars (step nextprime e m)).
Proof.
  intros (Hc & Hd & Ho).
  destruct (step_counter_digits e m) as (Gc & Gd).
  assert (Hc' : 0 <= counter (vars (step nextprime e m)) < 2 ^ 64).
  { destruct Gc as [-> | ->]; [exact Hc|].
    unfold uint64. apply Z.mod_pos_bound. reflexivity. }
  assert (Hd' : 1 <= digits (vars (step nextprime e m))).
  { destruct Gd as [-> | ->]; [exact Hd|apply sizeinbase_pos]. }
  split; [exact Hc'|]. split; [exact Hd'|].
  pose proof (step_out nextprime e m) as Hs. cbv zeta in Hs.
  destruct Hs as [(-> & _) | [(-> & _) | (_ & _ & _ & ->)]].
  - exact Ho.
  - apply Forall_app. split; [exact Ho|].
    repeat constructor; try (apply Hc || apply Hd).
    apply rate_of_nonneg. apply Hc.
  - apply Forall_app. split; [exact Ho|].
    repeat constructor; try (apply Hc || apply Hd).
Qed.

Lemma run_range_inv (evs : list event) (m : machine) :
  range_inv (vars m) -> range_inv (vars (run nextprime evs m)).
Proof.
  revert m. induction evs as [|e evs IH]; intros m H; [exact H|].
  rewrite run_cons. apply IH. apply step_range_inv. exact H.
Qed.

(** X14: whatever the events, every count handed to a sink fits
    [uint64_t], every length is at least one digit, and no rate is
    negative. *)
Theorem reported_values_in_range (a : stress_args_t) (s : settings) (t0 : Q)
    (evs : list event) :
  Forall output_ok (out (vars (run nextprime evs (loop_entry a s t0)))).
Proof.
  apply (run_range_inv evs (loop_entry a s t0)).
  split; [cbn; lia|]. split; [cbn; lia|]. constructor.
Qed.

Lemma step_clock_inv (t : Q) (e : event) (m : machine) :
  clock_inv t m ->
  match e with
  | Run now => (t <= now)%Q -> clock_inv now (step nextprime e m)
  | SIGALRM => clock_inv t (step nextprime e m)
  end.
Proof.
  destruct m as [l w]. unfold clock_inv. cbn [pc vars]. intros (Hd & Ht).
  destruct e as [now|]; unfold step.
  - intros Hle. unfold exec. cbn [pc vars].
    destruct l; cbn [pc vars];
      try (split; [exact Hd|intros [Hp|Hp]; discriminate Hp]).
    + split; [exact Hd|]. intros _. apply Qle_refl.
    + split; [exact Hd|]. intros _.
      apply Qle_trans with t; [apply Ht; left; reflexivity|exact Hle].
    + split; [|intros [Hp|Hp]; discriminate Hp].
      change (duration (stmt_time2 now w)) with (duration w + (now - t1 w))%Q.
      assert (H1 : (t1 w <= now)%Q)
        by (apply Qle_trans with t; [apply Ht; right; reflexivity|exact Hle]).
      rewrite <- (Qplus_0_l 0). apply Qplus_le_compat; [exact Hd|].
      unfold Qminus. rewrite <- (Qplus_opp_r (t1 w)).
      apply Qplus_le_compat; [exact H1|apply Qle_refl].
    + unfold switch_prime_method, factorial_arm.
      break_ifs; (split; [exact Hd|intros [Hp|Hp]; discriminate Hp]).
    + unfold progress_check.
      break_ifs; (split; [exact Hd|intros [Hp|Hp]; discriminate Hp]).
    + split; [exact Hd|].
      destruct (stress_continue w); intros [Hp|Hp]; discriminate Hp.
    + unfold finish.
      break_ifs; (split; [exact Hd|intros [Hp|Hp]; discriminate Hp]).
  - cbn [pc]. destruct (label_eqb l L_return); cbn [pc vars];
      [split; [exact Hd|exact Ht]|].
    unfold stress_prime_alarm_handler, siglongjmp, stress_continue_set_flag.
    cbn [pc vars].
    destruct (1 <? _); cbn [pc vars].
    + split; [exact Hd|intros [Hp|Hp]; discriminate Hp].
    + split; [exact Hd|exact Ht].
Qed.

Lemma run_clock_inv (evs : list event) (t : Q) (m : machine) :
  monotone_clock t evs -> clock_inv t m ->
  (0 <= duration (vars (run nextprime evs m)))%Q.
Proof.
  revert t m. induction evs as [|e evs IH]; intros t m Hm Hi.
  - exact (proj1 Hi).
  - rewrite run_cons. pose proof (step_clock_inv t e m Hi) as Hs.
    destruct e as [now|]; cbn [monotone_clock] in Hm.
    + apply (IH now); [exact (proj2 Hm)|exact (Hs (proj1 Hm))].
    + apply (IH t); [exact Hm|exact Hs].
Qed.

(** X15: while the clock does not run backwards the accumulated duration
    is never negative, whatever the signals. *)
Theorem duration_nonnegative (a : stress_args_t) (s : settings) (t0 : Q)
    (evs : list event) :
  monotone_clock t0 evs ->
  (0 <= duration (vars (run nextprime evs (loop_entry a s t0))))%Q.
Proof.
  intros Hm. apply (run_clock_inv evs t0); [exact Hm|].
  split; [apply Qle_refl|intros [Hp|Hp]; discriminate Hp].
Qed.

Lemma loop_body_duration (now1 now2 : Q) (w : worker) :
  duration (loop_body nextprime now1 now2 w) =
  (duration w + (now2 - now1))%Q.
Proof.
  unfold loop_body, progress_check, stmt_sizeinbase, stress_bogo_inc,
    switch_prime_method, factorial_arm.
  break_ifs; reflexivity.
Qed.

(** X16: the duration is the time between the two clock readings of each
    pass, summed, and nothing else: the switch, the counter and the
    reporting add nothing to it. *)
Theorem duration_is_time_in_nextprime (ts : list (Q * Q)) (w : worker) :
  (duration (iterations nextprime ts w) == duration w + elapsed ts)%Q.
Proof.
  revert w. induction ts as [|t ts IH]; intros w.
  - rewrite iterations_nil. cbn [elapsed]. rewrite Qplus_0_r. reflexivity.
  - rewrite iterations_cons, IH, loop_body_duration. cbn [elapsed].
    rewrite Qplus_assoc. reflexivity.
Qed.

End Ranges.

(** ** The growth methods in closed form *)

Lemma growth_inc (st v f : Z) :
  growth STRESS_PRIME_METHOD_INC st v f = (v + 2, f).
Proof. reflexivity. Qed.

Lemma growth_pwr2 (st v f : Z) :
  growth STRESS_PRIME_METHOD_PWR2 st v f = (st * 2, f).
Proof. reflexivity. Qed.

Lemma growth_pwr10 (st v f : Z) :
  growth STRESS_PRIME_METHOD_PWR10 st v f = (st * 10, f).
Proof. reflexivity. Qed.

Section Candidates.

Variable nextprime : Z -> Z.

Lemma iterations_prime_method (ts : list (Q * Q)) (w : worker) :
  prime_method (iterations nextprime ts w) = prime_method w.
Proof.
  revert w. induction ts as [|t ts IH]; intros w.
  - rewrite iterations_nil. reflexivity.
  - rewrite iterations_cons, IH.
    apply (loop_body_frame nextprime (fst t) (snd t) w).
Qed.

Lemma iterations_snoc (ts : list (Q * Q)) (t : Q * Q) (w : worker) :
  iterations nextprime (ts ++ [t]) w =
  loop_body nextprime (fst t) (snd t) (iterations nextprime ts w).
Proof.
  revert w. induction ts as [|t' ts IH]; intros w.
  - change ([] ++ [t]) with [t].
    rewrite iterations_cons, !iterations_nil. reflexivity.
  - change ((t' :: ts) ++ [t]) with (t' :: (ts ++ [t])).
    rewrite !iterations_cons. apply IH.
Qed.

(** X17: under [pwr2] the candidate after [n] passes is [2^n] times the
    first one, under [pwr10] it is [10^n] times the first one; neither
    depends on the primes found. *)
Theorem power_methods_closed_form (ts : list (Q * Q)) (w : worker) :
  (prime_method w = STRESS_PRIME_METHOD_PWR2 ->
   start (iterations nextprime ts w) =
   start w * 2 ^ Z.of_nat (length ts)) /\
  (prime_method w = STRESS_PRIME_METHOD_PWR10 ->
   start (iterations nextprime ts w) =
   start w * 10 ^ Z.of_nat (length ts)).
Proof.
  revert w. induction ts as [|t ts IH]; intros w.
  - rewrite iterations_nil. cbn [length Z.of_nat]. split; intros _; lia.
  - rewrite iterations_cons.
    destruct (loop_body_frame nextprime (fst t) (snd t) w) as (Hm & _).
    destruct (loop_body_growth nextprime (fst t) (snd t) w) as (Hs & _).
    destruct (IH (loop_body nextprime (fst t) (snd t) w)) as (I2 & I10).
    rewrite Hm in I2, I10. rewrite Hs in I2, I10.
    cbn [length]. rewrite Nat2Z.inj_succ, !Z.pow_succ_r by lia.
    split; intros E.
    + rewrite (I2 E), E, growth_pwr2. cbn [fst]. lia.
    + rewrite (I10 E), E, growth_pwr10. cbn [fst]. lia.
Qed.

Lemma factorial_method_from (ts : list (Q * Q)) (w : worker) (k : nat) :
  prime_method w <> STRESS_PRIME_METHOD_INC ->
  prime_method w <> STRESS_PRIME_METHOD_PWR2 ->
  prime_method w <> STRESS_PRIME_METHOD_PWR10 ->
  start w = zfact k -> factorial w = Z.of_nat k + 1 ->
  start (iterations nextprime ts w) = zfact (k + length ts) /\
  factorial (iterations nextprime ts w) = Z.of_nat (k + length ts) + 1.
Proof.
  revert w k. induction ts as [|t ts IH]; intros w k H1 H2 H3 Hs Hf.
  - rewrite iterations_nil, Nat.add_0_r. split; assumption.
  - rewrite iterations_cons.
    destruct (loop_body_frame nextprime (fst t) (snd t) w) as (Hm & _).
    destruct (loop_body_growth nextprime (fst t) (snd t) w) as (Gs & Gf).
    assert (Hg : growth (prime_method w) (start w) (nextprime (start w))
                   (factorial w) =
                 (start w * factorial w, factorial w + 1)).
    { unfold growth. destruct (prime_method w =? _); [reflexivity|].
      destruct (Z.eqb_spec (prime_method w) STRESS_PRIME_METHOD_INC);
        [contradiction|].
      destruct (Z.eqb_spec (prime_method w) STRESS_PRIME_METHOD_PWR2);
        [contradiction|].
      destruct (Z.eqb_spec (prime_method w) STRESS_PRIME_METHOD_PWR10);
        [contradiction|reflexivity]. }
    rewrite Hg in Gs, Gf. cbn [fst snd] in Gs, Gf.
    cbn [length]. rewrite <- Nat.add_succ_comm.
    apply IH; rewrite ?Hm; try assumption.
    + rewrite Gs, Hs, Hf. cbn [zfact]. lia.
    + rewrite Gf, Hf. lia.
Qed.

(** X18: under [factorial], and under any method code the switch does
    not know, the candidate after [n] passes from the loop entry is
    [(n+1)!] and the multiplier is [n+2]. *)
Theorem factorial_method_closed_form (a : stress_args_t) (s : settings)
    (now : Q) (ts : list (Q * Q)) :
  prime_method (worker_init a s now) <> STRESS_PRIME_METHOD_INC ->
  prime_method (worker_init a s now) <> STRESS_PRIME_METHOD_PWR2 ->
  prime_method (worker_init a s now) <> STRESS_PRIME_METHOD_PWR10 ->
  start (iterations nextprime ts (worker_init a s now)) =
    zfact (S (length ts)) /\
  factorial (iterations nextprime ts (worker_init a s now)) =
    Z.of_nat (length ts) + 2.
Proof.
  intros H1 H2 H3.
  destruct (factorial_method_from ts (worker_init a s now) 1 H1 H2 H3
              eq_refl eq_refl) as (Hs & Hf).
  split; [exact Hs|]. rewrite Hf. cbn [Nat.add]. lia.
Qed.

(** X19: under [inc] the next search starts two past the prime just
    found, so two primes found one after the other differ by more than 2:
    the larger of two twin primes is never found right after the
    smaller. *)
Theorem increment_method_skips_twin (now1 now2 now3 now4 : Q) (w : worker) :
  (forall n, n < nextprime n) ->
  prime_method w = STRESS_PRIME_METHOD_INC ->
  value (loop_body nextprime now1 now2 w) + 2 <
  value (loop_body nextprime now3 now4 (loop_body nextprime now1 now2 w)).
Proof.
  intros Hnp Hm.
  rewrite (loop_body_value nextprime now3 now4).
  destruct (loop_body_growth nextprime now1 now2 w) as (Hs & _).
  rewrite Hs, loop_body_value, Hm, growth_inc. cbn [fst]. apply Hnp.
Qed.

Lemma oracle_monotone (n n' : Z) :
  (forall k, next_prime_after k (nextprime k)) ->
  n <= n' -> nextprime n <= nextprime n'.
Proof.
  intros Hnp Hle.
  destruct (Hnp n) as (_ & _ & Hmin). destruct (Hnp n') as (Hp & Hgt & _).
  apply Hmin; [exact Hp|lia].
Qed.

(** X20: with an oracle that returns the smallest prime above its
    argument, the primes found never decrease from one pass to the next,
    whatever the method. *)
Theorem found_primes_never_decrease (a : stress_args_t) (s : settings)
    (now : Q) (ts : list (Q * Q)) (t t' : Q * Q) :
  (forall n, next_prime_after n (nextprime n)) ->
  value (iterations nextprime (ts ++ [t]) (worker_init a s now)) <=
  value (iterations nextprime (ts ++ [t; t']) (worker_init a s now)).
Proof.
  intros Hnp.
  assert (Hgt : forall n, n < nextprime n) by (intros n; apply (Hnp n)).
  change (ts ++ [t; t']) with (ts ++ ([t] ++ [t'])).
  rewrite app_assoc, (iterations_snoc (ts ++ [t]) t'), iterations_snoc.
  assert (H1 : 1 <= start (worker_init a s now))
    by (cbn [start worker_init]; lia).
  assert (H2 : 2 <= factorial (worker_init a s now))
    by (cbn [factorial worker_init]; lia).
  destruct (iterations_start_factorial nextprime ts (worker_init a s now)
              Hgt H1 H2) as [Hs Hf].
  generalize dependent (iterations nextprime ts (worker_init a s now)).
  intros w Hs Hf.
  rewrite (loop_body_value nextprime (fst t')), loop_body_value.
  apply oracle_monotone; [exact Hnp|].
  destruct (loop_body_growth nextprime (fst t) (snd t) w) as [Hg _].
  destruct (growth_increases (prime_method w) (start w)
              (nextprime (start w)) (factorial w) Hs Hf (Hgt (start w)))
    as (G1 & _).
  rewrite <- Hg in G1. lia.
Qed.

(** X21: progress lines need the [prime-progress] setting: a worker
    started without it, or with it false, writes none. *)
Theorem no_progress_without_setting (a : stress_args_t) (s : settings)
    (t0 : Q) (evs : list event) :
  setting_prime_progress s <> Some true ->
  filter is_progress (out (vars (run nextprime evs (loop_entry a s t0)))) = [].
Proof.
  intros Hs.
  apply (silent_worker_stays_silent nextprime evs (loop_entry a s t0)).
  cbn [loop_entry vars worker_init prime_progress].
  destruct (args_instance a >? 0); [reflexivity|].
  destruct (setting_prime_progress s) as [[|]|]; cbn [stress_get_setting];
    [contradiction Hs|..]; reflexivity.
Qed.

(** With a budget of [N] operations and no signal the worker leaves the
    loop when the [N]-th pass is complete, and not before. *)
Lemma run_passes_budget (ts : list (Q * Q)) (w : worker) :
  continue_flag w = true ->
  0 <= counter w -> max_ops w < 2 ^ 64 ->
  counter w + Z.of_nat (length ts) <= max_ops w ->
  ts <> [] ->
  run nextprime (flat_map (fun t => pass (fst t) (snd t)) ts)
    (Machine L_time1 w) =
  Machine (if counter w + Z.of_nat (length ts) <? max_ops w
           then L_time1 else L_finish)
    (iterations nextprime ts w).
Proof.
  revert w. induction ts as [|t ts IH]; intros w Hc H0 Hmax Hle Hne;
    [contradiction Hne; reflexivity|].
  rewrite iterations_cons. cbn [flat_map].
  rewrite run_app, run_pass. cbv zeta.
  destruct (loop_body_frame nextprime (fst t) (snd t) w)
    as (_ & _ & _ & Hm' & Hc' & _).
  pose proof (loop_body_counter nextprime (fst t) (snd t) w) as Hk.
  cbn [length] in Hle |- *. rewrite Nat2Z.inj_succ in Hle |- *.
  assert (Hk' : counter (loop_body nextprime (fst t) (snd t) w) =
                counter w + 1).
  { rewrite Hk. unfold uint64. apply Z.mod_small. lia. }
  unfold stress_continue, stress_bogo_get. rewrite Hc', Hm', Hc, Hk'.
  cbn [andb].
  assert (Hz : (max_ops w =? 0) = false) by (apply Z.eqb_neq; lia).
  rewrite Hz. cbn [orb].
  destruct ts as [|t' ts].
  - cbn [flat_map length Z.of_nat]. rewrite iterations_nil.
    replace (counter w + Z.succ 0) with (counter w + 1) by lia.
    reflexivity.
  - assert (Hlt : (counter w + 1 <? max_ops w) = true).
    { apply Z.ltb_lt. cbn [length] in Hle. lia. }
    rewrite Hlt.
    rewrite IH; try congruence; try lia.
    rewrite Hm', Hk'.
    replace (counter w + 1 + Z.of_nat (length (t' :: ts)))
      with (counter w + Z.succ (Z.of_nat (length (t' :: ts)))) by lia.
    reflexivity.
Qed.

(** X11: with a budget of [N] operations and no signal the worker leaves
    the loop when its [N]-th pass is complete, and not before. *)
Theorem budget_ends_loop_after_n_passes (a : stress_args_t) (s : settings)
    (t0 : Q) (ts : list (Q * Q)) :
  0 < args_max_ops a < 2 ^ 64 ->
  ts <> [] ->
  Z.of_nat (length ts) <= args_max_ops a ->
  pc (run nextprime (flat_map (fun t => pass (fst t) (snd t)) ts)
        (loop_entry a s t0)) =
  (if Z.of_nat (length ts) <? args_max_ops a then L_time1 else L_finish).
Proof.
  intros Hb Hne Hle. unfold loop_entry.
  rewrite run_passes_budget;
    [reflexivity | reflexivity | cbn [counter worker_init]; lia
    | cbn [max_ops worker_init]; lia
    | cbn [counter max_ops worker_init]; lia | exact Hne].
Qed.

End Candidates.

(** ** Sample runs of the properties above *)

Lemma nextprime_ref_above (n : Z) : n < nextprime_ref n.
Proof. apply (nextprime_ref_spec n). Qed.

Lemma flags_are_monotone_witness :
  continue_flag (vars (run nextprime_ref [SIGALRM]
                         (loop_entry args0 no_settings 0%Q))) = false /\
  continue_flag (vars (run nextprime_ref ([SIGALRM] ++ pass 0 1)
                         (loop_entry args0 no_settings 0%Q))) = false.
Proof.
  assert (H : continue_flag
                (vars (run nextprime_ref [SIGALRM]
                         (loop_entry args0 no_settings 0%Q))) = false)
    by reflexivity.
  split; [exact H|].
  rewrite run_app.
  exact (proj1 (flags_are_monotone nextprime_ref (pass 0 1)
                  (run nextprime_ref [SIGALRM]
                     (loop_entry args0 no_settings 0%Q))) H).
Defined.

Lemma jumped_iff_two_signals_witness :
  jumped (vars (run nextprime_ref [Run 0%Q; SIGALRM; Run 0%Q; SIGALRM]
                  (loop_entry args0 no_settings 0%Q))) = true /\
  2 <= count_alarms [Run 0%Q; SIGALRM; Run 0%Q; SIGALRM].
Proof.
  assert (H : jumped
                (vars (run nextprime_ref [Run 0%Q; SIGALRM; Run 0%Q; SIGALRM]
                         (loop_entry args0 no_settings 0%Q))) = true)
    by reflexivity.
  split; [exact H|].
  exact (proj1 (jumped_iff_two_signals nextprime_ref args0 no_settings 0%Q
                  [Run 0%Q; SIGALRM; Run 0%Q; SIGALRM]) H).
Defined.

Lemma at_most_one_signal_exits_cleanly_witness :
  count_alarms one_alarm_events <= 1 /\
  pc (run nextprime_ref one_alarm_events
        (loop_entry args0 no_settings 0%Q)) = L_return /\
  jumped (vars (run nextprime_ref one_alarm_events
                  (loop_entry args0 no_settings 0%Q))) = false /\
  mpz_live (vars (run nextprime_ref one_alarm_events
                    (loop_entry args0 no_settings 0%Q))) = false.
Proof.
  assert (H1 : count_alarms one_alarm_events <= 1)
    by (vm_compute; discriminate).
  assert (H2 : pc (run nextprime_ref one_alarm_events
                     (loop_entry args0 no_settings 0%Q)) = L_return)
    by (vm_compute; reflexivity).
  split; [exact H1|]. split; [exact H2|].
  exact (at_most_one_signal_exits_cleanly nextprime_ref args0 no_settings
           0%Q one_alarm_events H1 H2).
Defined.

Lemma cleared_flag_returns_in_ten_witness :
  continue_flag
    (vars (step nextprime_ref SIGALRM (loop_entry args0 no_settings 0%Q)))
  = false /\
  (10 <= length ten_readings)%nat /\
  pc (run nextprime_ref (map Run ten_readings)
        (step nextprime_ref SIGALRM (loop_entry args0 no_settings 0%Q)))
  = L_return.
Proof.
  assert (H1 : continue_flag
                 (vars (step nextprime_ref SIGALRM
                          (loop_entry args0 no_settings 0%Q))) = false)
    by reflexivity.
  assert (H2 : (10 <= length ten_readings)%nat) by (vm_compute; lia).
  split; [exact H1|]. split; [exact H2|].
  exact (cleared_flag_returns_in_ten nextprime_ref ten_readings
           (step nextprime_ref SIGALRM (loop_entry args0 no_settings 0%Q))
           H1 H2).
Defined.

Lemma no_signal_no_budget_never_exits_witness :
  args_max_ops args0 = 0 /\
  in_loop (pc (run nextprime_ref (map Run ten_readings)
                 (loop_entry args0 no_settings 0%Q))) = true.
Proof.
  split; [reflexivity|].
  exact (no_signal_no_budget_never_exits nextprime_ref args0 no_settings 0%Q
           ten_readings eq_refl).
Defined.


Lemma duration_nonnegative_witness :
  monotone_clock 0%Q burst_events /\
  (0 <= duration (vars (run nextprime_ref burst_events
                          (loop_entry args0 with_progress 0%Q))))%Q.
Proof.
  assert (H : monotone_clock 0%Q burst_events)
    by (vm_compute; repeat split; discriminate).
  split; [exact H|].
  exact (duration_nonnegative nextprime_ref args0 with_progress 0%Q
           burst_events H).
Defined.

Lemma power_methods_closed_form_witness :
  prime_method (worker_init args0 (with_method STRESS_PRIME_METHOD_PWR10)
                  0%Q) = STRESS_PRIME_METHOD_PWR10 /\
  start (iterations nextprime_ref three_passes
           (worker_init args0 (with_method STRESS_PRIME_METHOD_PWR10) 0%Q)) =
  start (worker_init args0 (with_method STRESS_PRIME_METHOD_PWR10) 0%Q) *
  10 ^ Z.of_nat (length three_passes).
Proof.
  split; [reflexivity|].
  exact (proj2 (power_methods_closed_form nextprime_ref three_passes
                  (worker_init args0 (with_method STRESS_PRIME_METHOD_PWR10)
                     0%Q)) eq_refl).
Defined.

Lemma factorial_method_closed_form_witness :
  prime_method (worker_init args0 (with_method 7) 0%Q) <>
    STRESS_PRIME_METHOD_INC /\
  prime_method (worker_init args0 (with_method 7) 0%Q) <>
    STRESS_PRIME_METHOD_PWR2 /\
  prime_method (worker_init args0 (with_method 7) 0%Q) <>
    STRESS_PRIME_METHOD_PWR10 /\
  start (iterations nextprime_ref three_passes
           (worker_init args0 (with_method 7) 0%Q)) =
    zfact (S (length three_passes)) /\
  factorial (iterations nextprime_ref three_passes
               (worker_init args0 (with_method 7) 0%Q)) =
    Z.of_nat (length three_passes) + 2.
Proof.
  assert (H1 : prime_method (worker_init args0 (with_method 7) 0%Q) <>
               STRESS_PRIME_METHOD_INC) by discriminate.
  assert (H2 : prime_method (worker_init args0 (with_method 7) 0%Q) <>
               STRESS_PRIME_METHOD_PWR2) by discriminate.
  assert (H3 : prime_method (worker_init args0 (with_method 7) 0%Q) <>
               STRESS_PRIME_METHOD_PWR10) by discriminate.
  split; [exact H1|]. split; [exact H2|]. split; [exact H3|].
  exact (factorial_method_closed_form nextprime_ref args0 (with_method 7)
           0%Q three_passes H1 H2 H3).
Defined.

Lemma increment_method_skips_twin_witness :
  (forall n, n < nextprime_ref n) /\
  prime_method (worker_init args0 no_settings 0%Q) =
    STRESS_PRIME_METHOD_INC /\
  value (loop_body nextprime_ref 0 1 (worker_init args0 no_settings 0%Q)) + 2
  < value (loop_body nextprime_ref 1 2
             (loop_body nextprime_ref 0 1
                (worker_init args0 no_settings 0%Q))).
Proof.
  split; [exact nextprime_ref_above|]. split; [reflexivity|].
  exact (increment_method_skips_twin nextprime_ref 0 1 1 2
           (worker_init args0 no_settings 0%Q) nextprime_ref_above eq_refl).
Defined.

Lemma found_primes_never_decrease_witness :
  (forall n, next_prime_after n (nextprime_ref n)) /\
  value (iterations nextprime_ref (three_passes ++ [(3%Q, 4%Q)])
           (worker_init args0 no_settings 0%Q)) <=
  value (iterations nextprime_ref
           (three_passes ++ [(3%Q, 4%Q); (4%Q, 5%Q)])
           (worker_init args0 no_settings 0%Q)).
Proof.
  split; [exact nextprime_ref_spec|].
  exact (found_primes_never_decrease nextprime_ref args0 no_settings 0%Q
           three_passes (3%Q, 4%Q) (4%Q, 5%Q) nextprime_ref_spec).
Defined.

Lemma no_progress_without_setting_witness :
  setting_prime_progress no_settings <> Some true /\
  filter is_progress
    (out (vars (run nextprime_ref burst_events
                  (loop_entry args0 no_settings 0%Q)))) = [].
Proof.
  assert (H : setting_prime_progress no_settings <> Some true)
    by discriminate.
  split; [exact H|].
  exact (no_progress_without_setting nextprime_ref args0 no_settings 0%Q
           burst_events H).
Defined.

Lemma budget_ends_loop_after_n_passes_witness :
  0 < args_max_ops args_two_ops < 2 ^ 64 /\
  two_passes <> [] /\
  Z.of_nat (length two_passes) <= args_max_ops args_two_ops /\
  pc (run nextprime_ref
        (flat_map (fun t => pass (fst t) (snd t)) two_passes)
        (loop_entry args_two_ops no_settings 0%Q)) = L_finish.
Proof.
  assert (H1 : 0 < args_max_ops args_two_ops < 2 ^ 64)
    by (split; reflexivity).
  assert (H2 : two_passes <> []) by discriminate.
  assert (H3 : Z.of_nat (length two_passes) <= args_max_ops args_two_ops)
    by (vm_compute; discriminate).
  split; [exact H1|]. split; [exact H2|]. split; [exact H3|].
  exact (budget_ends_loop_after_n_passes nextprime_ref args_two_ops
           no_settings 0%Q two_passes H1 H2 H3).
Defined.

Lemma integers_cleared_at_most_once_witness :
  in_loop (pc (run nextprime_ref (pass 0 1)
                 (loop_entry args0 no_settings 0%Q))) = true /\
  mpz_live (vars (run nextprime_ref (pass 0 1)
                    (loop_entry args0 no_settings 0%Q))) = true.
Proof.
  assert (H : in_loop (pc (run nextprime_ref (pass 0 1)
                             (loop_entry args0 no_settings 0%Q))) = true)
    by (vm_compute; reflexivity).
  split; [exact H|].
  exact (proj1 (integers_cleared_at_most_once nextprime_ref args0
                  no_settings 0%Q (pass 0 1)) H).
Defined.
